(** * rupypy: the AST-to-bytecode compiler ([rupypy/ast.py])

    A shallow embedding of the AST node classes of [rupypy/ast.py] and of
    their [compile] methods, together with the properties of the emitted
    bytecode.  The compiler context ([rupypy/bytecode.py]) and the opcode
    catalogue ([rupypy/consts.py]) are collaborators of [ast.py]; they are
    modelled after their description in the specification. *)

From Stdlib Require Import ZArith Lia Bool Ascii String.
From stdpp Require Import base option list strings gmap.

Open Scope string_scope.
Open Scope list_scope.

(** ** The opcode catalogue *)

(** Modelled from the spec: [rupypy/consts.py] (the opcode catalogue of 6,
    "Bytecode instruction set").  The names are the ones [ast.py] uses. *)
Module consts.
Inductive Opcode : Set :=
| LOAD_SELF | LOAD_CONST | LOAD_LOCAL | STORE_LOCAL
| LOAD_CONSTANT | STORE_CONSTANT
| LOAD_INSTANCE_VAR | STORE_INSTANCE_VAR
| SEND | JUMP | JUMP_IF_FALSE | DISCARD_TOP
| BUILD_ARRAY | BUILD_CLASS | DEFINE_FUNCTION
| COPY_STRING | RETURN.

#[global] Instance Opcode_eq_dec : EqDecision Opcode.
Proof. solve_decision. Defined.
End consts.

(** One emitted instruction: the opcode and the operands [emit] was called
    with. *)
Record Instr : Set := MkInstr { opcode : consts.Opcode; operands : list nat }.

#[global] Instance Instr_eq_dec : EqDecision Instr.
Proof. solve_decision. Defined.

(** ** Runtime values of the object space *)

(** Modelled from the spec: the values the object space hands to the compiler
    (6, "Runtime object space"): the three singletons, integer and string
    literals, and code objects wrapping an assembled unit. *)
#[warnings="-register-all"]
Inductive W_Object : Type :=
| w_true
| w_false
| w_nil
| W_Int (intvalue : Z)
| W_String (strvalue : string)
| W_Code (code : list Instr) (cpool : list W_Object)
         (spool : list string) (slots : gmap string nat).

(** Modelled from the spec: the immutable bytecode object [create_bytecode]
    assembles. *)
Record Bytecode : Type := MkBytecode {
  bc_code : list Instr;
  bc_consts : list W_Object;
  bc_symbols : list string;
  bc_locals : gmap string nat;
}.

Module space.
Definition newint (z : Z) : W_Object := W_Int z.
Definition newstr (s : string) : W_Object := W_String s.
Definition newcode (bc : Bytecode) : W_Object :=
  W_Code (bc_code bc) (bc_consts bc) (bc_symbols bc) (bc_locals bc).
End space.

(** ** The compilation context *)

(** Modelled from the spec: [CompilerContext] of [rupypy/bytecode.py]
    (3, "Compilation Context"): the instruction sequence, the constant pool,
    the symbol-name pool and the local-variable table of one unit. *)
Record CompilerContext : Type := MkCtx {
  ctx_data : list Instr;
  ctx_consts : list W_Object;
  ctx_symbols : list string;
  ctx_locals : gmap string nat;
}.

(** [CompilerContext(space)]: a fresh unit. *)
Definition new_context : CompilerContext :=
  {| ctx_data := []; ctx_consts := []; ctx_symbols := []; ctx_locals := ∅ |}.

(** Exceptions a compile pass can die of. *)
Inductive Exception : Set := IndexError | NotImplementedError.

Inductive Result (A : Type) : Type :=
| Ok (a : A)
| Raise (e : Exception).
Arguments Ok {A} a.
Arguments Raise {A} e.

(** Context-threading computations that may raise. *)
Definition M (A : Type) : Type := CompilerContext -> Result (A * CompilerContext).

Definition ret {A} (a : A) : M A := fun ctx => Ok (a, ctx).
Definition raise {A} (e : Exception) : M A := fun _ => Raise e.
Definition bind {A B} (m : M A) (k : A -> M B) : M B :=
  fun ctx => match m ctx with
             | Ok (a, ctx') => k a ctx'
             | Raise e => Raise e
             end.

Declare Scope ctx_scope.
Delimit Scope ctx_scope with ctx.
Notation "x <- m ;; k" := (bind m (fun x => k))
  (at level 100, m at next level, right associativity) : ctx_scope.
Notation "m ;; k" := (bind m (fun _ => k))
  (at level 100, right associativity) : ctx_scope.
Open Scope ctx_scope.

(** Modelled from the spec: [emit(opcode, operand?)] appends one instruction
    (4.2). [ast.py] calls it with zero, one or two operands. *)
Definition emit (c : consts.Opcode) (args : list nat) : M unit :=
  fun ctx => Ok (tt, {| ctx_data := ctx_data ctx ++ [MkInstr c args];
                        ctx_consts := ctx_consts ctx;
                        ctx_symbols := ctx_symbols ctx;
                        ctx_locals := ctx_locals ctx |}).

(** Modelled from the spec: [get_pos()] is the position of the
    next-to-be-emitted instruction. *)
Definition get_pos : M nat :=
  fun ctx => Ok (length (ctx_data ctx), ctx).

(** Modelled from the spec: [patch_jump(pos)] rewrites the operand of the
    jump instruction at [pos] to the current end-of-sequence position.  A
    position outside the sequence is an index error. *)
Definition patch_jump (pos : nat) : M unit :=
  fun ctx =>
    match ctx_data ctx !! pos with
    | Some i =>
        Ok (tt, {| ctx_data :=
                     <[pos := MkInstr (opcode i) [length (ctx_data ctx)]]>
                       (ctx_data ctx);
                   ctx_consts := ctx_consts ctx;
                   ctx_symbols := ctx_symbols ctx;
                   ctx_locals := ctx_locals ctx |})
    | None => Raise IndexError
    end.

(** Modelled from the spec: [local_defined(name)] tests membership without
    allocating. *)
Definition local_defined (name : string) : M bool :=
  fun ctx => Ok (bool_decide (is_Some (ctx_locals ctx !! name)), ctx).

(** Modelled from the spec: [create_local(name)] returns the name's existing
    slot or allocates the next free slot. *)
Definition create_local (name : string) : M nat :=
  fun ctx =>
    match ctx_locals ctx !! name with
    | Some slot => Ok (slot, ctx)
    | None =>
        let slot := size (ctx_locals ctx) in
        Ok (slot, {| ctx_data := ctx_data ctx;
                     ctx_consts := ctx_consts ctx;
                     ctx_symbols := ctx_symbols ctx;
                     ctx_locals := <[name := slot]> (ctx_locals ctx) |})
    end.

(** Modelled from the spec: [create_const(w)] appends a literal to the
    constant pool and returns its index. *)
Definition create_const (w : W_Object) : M nat :=
  fun ctx =>
    Ok (length (ctx_consts ctx),
        {| ctx_data := ctx_data ctx;
           ctx_consts := ctx_consts ctx ++ [w];
           ctx_symbols := ctx_symbols ctx;
           ctx_locals := ctx_locals ctx |}).

Definition create_int_const (z : Z) : M nat := create_const (space.newint z).
Definition create_string_const (s : string) : M nat :=
  create_const (space.newstr s).

(** Modelled from the spec: [create_symbol_const(name)] appends/looks up a
    name in the symbol pool and returns its index. *)
Definition create_symbol_const (name : string) : M nat :=
  fun ctx =>
    match list_find (fun s => s = name) (ctx_symbols ctx) with
    | Some (i, _) => Ok (i, ctx)
    | None =>
        Ok (length (ctx_symbols ctx),
            {| ctx_data := ctx_data ctx;
               ctx_consts := ctx_consts ctx;
               ctx_symbols := ctx_symbols ctx ++ [name];
               ctx_locals := ctx_locals ctx |})
    end.

(** Modelled from the spec: [create_bytecode()] snapshots the instruction
    sequence and the pools. *)
Definition create_bytecode : M Bytecode :=
  fun ctx => Ok ({| bc_code := ctx_data ctx;
                    bc_consts := ctx_consts ctx;
                    bc_symbols := ctx_symbols ctx;
                    bc_locals := ctx_locals ctx |}, ctx).

(** Running a computation in a fresh unit, [CompilerContext(ctx.space)]; the
    enclosing context is left as it was. *)
Definition in_new_context {A} (m : M A) : M A :=
  fun ctx => match m new_context with
             | Ok (a, _) => Ok (a, ctx)
             | Raise e => Raise e
             end.

(** [for x in xs: f(x)] *)
Definition for_each {A} (f : A -> M unit) : list A -> M unit :=
  fix go (xs : list A) : M unit :=
    match xs with
    | [] => ret tt
    | x :: rest => f x ;; go rest
    end.

(** [for i in range(len(xs) - 1, -1, -1): f(xs[i])] *)
Definition for_each_reversed {A} (f : A -> M unit) : list A -> M unit :=
  fix go (xs : list A) : M unit :=
    match xs with
    | [] => ret tt
    | x :: rest => go rest ;; f x
    end.

(** ** The AST *)

#[warnings="-register-all"]
Inductive Node : Type :=
| Main (block : Node)
| Block (stmts : list Node)
| Statement (expr : Node) (dont_pop : bool)
| Assignment (target : string) (value : Node)
| InstanceVariableAssignment (name : string) (value : Node)
| If (cond body : Node)
| While (cond body : Node)
| Class (name : string) (superclass : option Node) (body : Node)
| Function (name : string) (args : list string) (body : Node)
| Return (expr : Node)
| BinOp (op : string) (left right : Node)
| Send (receiver : Node) (method : string) (args : list Node)
| Self
| Variable_ (name : string)
| InstanceVariable (name : string)
| Array (items : list Node)
| ConstantInt (intvalue : Z)
| ConstantString (strvalue : string).

(** [s[0]] *)
Definition first_char (s : string) : M ascii :=
  match s with
  | EmptyString => raise IndexError
  | String c _ => ret c
  end.

(** [c.isupper()] on a one-character byte string. *)
Definition isupper (c : ascii) : bool :=
  (65 <=? nat_of_ascii c)%nat && (nat_of_ascii c <=? 90)%nat.

(** The [named_consts] dictionary of [Variable.compile]. *)
Definition named_consts (name : string) : option W_Object :=
  if String.eqb name "true" then Some w_true
  else if String.eqb name "false" then Some w_false
  else if String.eqb name "nil" then Some w_nil
  else None.

Definition Self_compile : M unit := emit consts.LOAD_SELF [].

(** The body of [Send.compile], over the compilation of the receiver and of
    the arguments. *)
Definition Send_compile (receiver_compile : M unit) (method : string)
    (args_compile : M unit) (nargs : nat) : M unit :=
  receiver_compile ;;
  args_compile ;;
  sym <- create_symbol_const method ;;
  emit consts.SEND [sym; nargs].

Fixpoint compile (n : Node) : M unit :=
  match n with
  | Main block =>
      compile block ;;
      emit consts.DISCARD_TOP [] ;;
      k <- create_const w_true ;;
      emit consts.LOAD_CONST [k] ;;
      emit consts.RETURN []
  | Block stmts =>
      for_each compile stmts
  | Statement expr dont_pop =>
      compile expr ;;
      if negb dont_pop then emit consts.DISCARD_TOP [] else ret tt
  | Assignment target value =>
      c <- first_char target ;;
      if isupper c then
        compile value ;;
        k <- create_symbol_const target ;;
        emit consts.STORE_CONSTANT [k]
      else
        loc <- create_local target ;;
        compile value ;;
        emit consts.STORE_LOCAL [loc]
  | InstanceVariableAssignment name value =>
      compile value ;;
      emit consts.LOAD_SELF [] ;;
      k <- create_symbol_const name ;;
      emit consts.STORE_INSTANCE_VAR [k]
  | If cond body =>
      compile cond ;;
      pos <- get_pos ;;
      emit consts.JUMP_IF_FALSE [0] ;;
      compile body ;;
      else_pos <- get_pos ;;
      emit consts.JUMP [0] ;;
      patch_jump pos ;;
      k <- create_const w_nil ;;
      emit consts.LOAD_CONST [k] ;;
      patch_jump else_pos
  | While cond body =>
      start_pos <- get_pos ;;
      compile cond ;;
      jump_pos <- get_pos ;;
      emit consts.JUMP_IF_FALSE [0] ;;
      compile body ;;
      emit consts.DISCARD_TOP [] ;;
      emit consts.JUMP [start_pos] ;;
      patch_jump jump_pos ;;
      k <- create_const w_nil ;;
      emit consts.LOAD_CONST [k]
  | Class name superclass body =>
      emit consts.LOAD_SELF [] ;;
      k <- create_symbol_const name ;;
      emit consts.LOAD_CONST [k] ;;
      k <- create_const w_nil ;;
      emit consts.LOAD_CONST [k] ;;
      bytecode <- in_new_context (
        compile body ;;
        emit consts.DISCARD_TOP [] ;;
        k <- create_const w_nil ;;
        emit consts.LOAD_CONST [k] ;;
        emit consts.RETURN [] ;;
        create_bytecode) ;;
      k <- create_const (space.newcode bytecode) ;;
      emit consts.LOAD_CONST [k] ;;
      emit consts.BUILD_CLASS []
  | Function name args body =>
      bytecode <- in_new_context (
        for_each (fun name => create_local name ;; ret tt) args ;;
        compile body ;;
        emit consts.RETURN [] ;;
        create_bytecode) ;;
      emit consts.LOAD_SELF [] ;;
      k <- create_symbol_const name ;;
      emit consts.LOAD_CONST [k] ;;
      k <- create_const (space.newcode bytecode) ;;
      emit consts.LOAD_CONST [k] ;;
      emit consts.DEFINE_FUNCTION []
  | Return expr =>
      compile expr ;;
      emit consts.RETURN []
  | BinOp op lhs rhs =>
      Send_compile (compile lhs) op (for_each_reversed compile [rhs]) 1
  | Send receiver method args =>
      Send_compile (compile receiver) method
        (for_each_reversed compile args) (length args)
  | Self => Self_compile
  | Variable_ name =>
      match named_consts name with
      | Some w =>
          k <- create_const w ;;
          emit consts.LOAD_CONST [k]
      | None =>
          if String.eqb name "self" then emit consts.LOAD_SELF []
          else
            defined <- local_defined name ;;
            if defined then
              loc <- create_local name ;;
              emit consts.LOAD_LOCAL [loc]
            else
              c <- first_char name ;;
              if isupper c then
                k <- create_symbol_const name ;;
                emit consts.LOAD_CONSTANT [k]
              else
                Send_compile Self_compile name
                  (for_each_reversed compile []) 0
      end
  | InstanceVariable name =>
      emit consts.LOAD_SELF [] ;;
      k <- create_symbol_const name ;;
      emit consts.LOAD_INSTANCE_VAR [k]
  | Array items =>
      for_each compile items ;;
      emit consts.BUILD_ARRAY [length items]
  | ConstantInt intvalue =>
      k <- create_int_const intvalue ;;
      emit consts.LOAD_CONST [k]
  | ConstantString strvalue =>
      k <- create_string_const strvalue ;;
      emit consts.LOAD_CONST [k] ;;
      emit consts.COPY_STRING []
  end.

(** ** Reasoning principles *)

(** Induction over the tree, through the statement, argument and item
    lists. *)
Section Node_induction.
Variable P : Node -> Prop.
Hypothesis HMain : forall block, P block -> P (Main block).
Hypothesis HBlock : forall stmts, Forall P stmts -> P (Block stmts).
Hypothesis HStatement : forall expr dont_pop, P expr -> P (Statement expr dont_pop).
Hypothesis HAssignment : forall target value, P value -> P (Assignment target value).
Hypothesis HIVA : forall name value,
  P value -> P (InstanceVariableAssignment name value).
Hypothesis HIf : forall cond body, P cond -> P body -> P (If cond body).
Hypothesis HWhile : forall cond body, P cond -> P body -> P (While cond body).
Hypothesis HClass : forall name superclass body,
  from_option P True superclass -> P body -> P (Class name superclass body).
Hypothesis HFunction : forall name args body, P body -> P (Function name args body).
Hypothesis HReturn : forall expr, P expr -> P (Return expr).
Hypothesis HBinOp : forall op lhs rhs, P lhs -> P rhs -> P (BinOp op lhs rhs).
Hypothesis HSend : forall receiver method args,
  P receiver -> Forall P args -> P (Send receiver method args).
Hypothesis HSelf : P Self.
Hypothesis HVariable : forall name, P (Variable_ name).
Hypothesis HInstanceVariable : forall name, P (InstanceVariable name).
Hypothesis HArray : forall items, Forall P items -> P (Array items).
Hypothesis HConstantInt : forall z, P (ConstantInt z).
Hypothesis HConstantString : forall s, P (ConstantString s).

Fixpoint Node_ind' (n : Node) : P n :=
  let all := fix all (l : list Node) : Forall P l :=
    match l with
    | [] => @List.Forall_nil _ P
    | x :: rest => @List.Forall_cons _ P x rest (Node_ind' x) (all rest)
    end in
  match n with
  | Main block => HMain block (Node_ind' block)
  | Block stmts => HBlock stmts (all stmts)
  | Statement expr dont_pop => HStatement expr dont_pop (Node_ind' expr)
  | Assignment target value => HAssignment target value (Node_ind' value)
  | InstanceVariableAssignment name value => HIVA name value (Node_ind' value)
  | If cond body => HIf cond body (Node_ind' cond) (Node_ind' body)
  | While cond body => HWhile cond body (Node_ind' cond) (Node_ind' body)
  | Class name superclass body =>
      HClass name superclass body
        (match superclass as o return from_option P True o with
         | Some s => Node_ind' s
         | None => I
         end)
        (Node_ind' body)
  | Function name args body => HFunction name args body (Node_ind' body)
  | Return expr => HReturn expr (Node_ind' expr)
  | BinOp op lhs rhs => HBinOp op lhs rhs (Node_ind' lhs) (Node_ind' rhs)
  | Send receiver method args =>
      HSend receiver method args (Node_ind' receiver) (all args)
  | Self => HSelf
  | Variable_ name => HVariable name
  | InstanceVariable name => HInstanceVariable name
  | Array items => HArray items (all items)
  | ConstantInt z => HConstantInt z
  | ConstantString s => HConstantString s
  end.
End Node_induction.

(** Inversion of a successful sequencing. *)
Lemma bind_Ok {A B} (m : M A) (k : A -> M B) ctx r :
  bind m k ctx = Ok r ->
  exists a ctx1, m ctx = Ok (a, ctx1) /\ k a ctx1 = Ok r.
Proof.
  unfold bind. destruct (m ctx) as [[a ctx1]|e]; [eauto | discriminate].
Qed.

Lemma bind_Ok_intro {A B} (m : M A) (k : A -> M B) ctx a ctx1 :
  m ctx = Ok (a, ctx1) -> bind m k ctx = k a ctx1.
Proof. unfold bind. by intros ->. Qed.

Ltac inv_bind H :=
  let a := fresh "a" in
  let c := fresh "ctx" in
  let E := fresh "E" in
  apply bind_Ok in H; destruct H as (a & c & E & H);
  match type of a with unit => destruct a | _ => idtac end.

Ltac inv_binds H := repeat inv_bind H.

(** ** Monotonicity of the context *)

(** What one unit's context can only do during a compile pass: the
    instruction sequence and the pools grow at the end, and locals keep
    their slots; a new local gets a slot past the ones in use. *)
Record extends (ctx ctx' : CompilerContext) : Prop := MkExtends {
  ext_data : ctx_data ctx `prefix_of` ctx_data ctx';
  ext_consts : ctx_consts ctx `prefix_of` ctx_consts ctx';
  ext_symbols : ctx_symbols ctx `prefix_of` ctx_symbols ctx';
  ext_locals : ctx_locals ctx ⊆ ctx_locals ctx';
  ext_slots : forall name slot,
    ctx_locals ctx' !! name = Some slot ->
    ctx_locals ctx !! name = None ->
    size (ctx_locals ctx) <= slot;
}.

#[global] Instance extends_refl : Reflexive extends.
Proof.
  intros ctx. split; try reflexivity.
  intros name slot H1 H2. congruence.
Qed.

#[global] Instance extends_trans : Transitive extends.
Proof.
  intros c1 c2 c3 [d1 k1 s1 l1 n1] [d2 k2 s2 l2 n2].
  split; try (etrans; eassumption).
  intros name slot H3 H1.
  destruct (ctx_locals c2 !! name) as [slot2|] eqn:H2.
  - assert (ctx_locals c3 !! name = Some slot2) as H3'
      by (eapply lookup_weaken; eassumption).
    assert (slot2 = slot) as -> by congruence. eauto.
  - etrans; [ apply (map_subseteq_size _ _ l1) | eauto ].
Qed.

Lemma emit_Ok c args ctx u ctx' :
  emit c args ctx = Ok (u, ctx') ->
  ctx_data ctx' = ctx_data ctx ++ [MkInstr c args] /\
  ctx_consts ctx' = ctx_consts ctx /\
  ctx_symbols ctx' = ctx_symbols ctx /\
  ctx_locals ctx' = ctx_locals ctx.
Proof. unfold emit. intros [= _ <-]. done. Qed.

Lemma emit_extends c args ctx u ctx' :
  emit c args ctx = Ok (u, ctx') -> extends ctx ctx'.
Proof.
  intros (Hd & Hk & Hs & Hl)%emit_Ok.
  split; rewrite ?Hd, ?Hk, ?Hs, ?Hl; try done.
  - by apply prefix_app_r.
  - congruence.
Qed.

Lemma get_pos_Ok ctx pos ctx' :
  get_pos ctx = Ok (pos, ctx') -> pos = length (ctx_data ctx) /\ ctx' = ctx.
Proof. unfold get_pos. by intros [= <- <-]. Qed.

Lemma create_const_Ok w ctx k ctx' :
  create_const w ctx = Ok (k, ctx') ->
  k = length (ctx_consts ctx) /\
  ctx_data ctx' = ctx_data ctx /\
  ctx_consts ctx' = ctx_consts ctx ++ [w] /\
  ctx_symbols ctx' = ctx_symbols ctx /\
  ctx_locals ctx' = ctx_locals ctx.
Proof. unfold create_const. intros [= <- <-]. done. Qed.

Lemma create_const_extends w ctx k ctx' :
  create_const w ctx = Ok (k, ctx') -> extends ctx ctx'.
Proof.
  intros (_ & Hd & Hk & Hs & Hl)%create_const_Ok.
  split; rewrite ?Hd, ?Hk, ?Hs, ?Hl; try done.
  - by apply prefix_app_r.
  - congruence.
Qed.

Lemma create_symbol_const_Ok name ctx k ctx' :
  create_symbol_const name ctx = Ok (k, ctx') ->
  ctx_symbols ctx' !! k = Some name /\
  ctx_symbols ctx `prefix_of` ctx_symbols ctx' /\
  ctx_data ctx' = ctx_data ctx /\
  ctx_consts ctx' = ctx_consts ctx /\
  ctx_locals ctx' = ctx_locals ctx.
Proof.
  unfold create_symbol_const.
  destruct (list_find _ _) as [[i s]|] eqn:Hf.
  - intros [= <- <-]. apply list_find_Some in Hf as (Hi & -> & _). done.
  - intros [= <- <-]. simpl. split_and!; try done.
    + by rewrite list_lookup_middle.
    + by apply prefix_app_r.
Qed.

Lemma create_symbol_const_extends name ctx k ctx' :
  create_symbol_const name ctx = Ok (k, ctx') -> extends ctx ctx'.
Proof.
  intros (_ & Hs & Hd & Hk & Hl)%create_symbol_const_Ok.
  split; rewrite ?Hd, ?Hk, ?Hl; try done. congruence.
Qed.

Lemma create_local_Ok name ctx slot ctx' :
  create_local name ctx = Ok (slot, ctx') ->
  ctx_locals ctx' !! name = Some slot /\
  ctx_data ctx' = ctx_data ctx /\
  ctx_consts ctx' = ctx_consts ctx /\
  ctx_symbols ctx' = ctx_symbols ctx /\
  (ctx_locals ctx !! name = Some slot /\ ctx_locals ctx' = ctx_locals ctx \/
   ctx_locals ctx !! name = None /\ slot = size (ctx_locals ctx) /\
   ctx_locals ctx' = <[name := slot]> (ctx_locals ctx)).
Proof.
  unfold create_local.
  destruct (ctx_locals ctx !! name) as [s|] eqn:Hl.
  - intros [= <- <-]. split_and!; auto.
  - intros [= <- <-]. simpl. split_and!; auto.
    by rewrite lookup_insert_eq.
Qed.

Lemma create_local_extends name ctx slot ctx' :
  create_local name ctx = Ok (slot, ctx') -> extends ctx ctx'.
Proof.
  intros (_ & Hd & Hk & Hs & [[_ Hl] | (Hn & -> & Hl)])%create_local_Ok.
  - split; rewrite ?Hd, ?Hk, ?Hs, ?Hl; try done. congruence.
  - split; rewrite ?Hd, ?Hk, ?Hs, ?Hl; try done.
    + by apply insert_subseteq.
    + intros n s Hi Hn'. destruct (decide (n = name)) as [->|Hne].
      * rewrite lookup_insert_eq in Hi. by injection Hi as <-.
      * rewrite lookup_insert_ne in Hi by done. congruence.
Qed.

Lemma local_defined_Ok name ctx b ctx' :
  local_defined name ctx = Ok (b, ctx') ->
  ctx' = ctx /\ b = bool_decide (is_Some (ctx_locals ctx !! name)).
Proof. unfold local_defined. by intros [= <- <-]. Qed.

Lemma first_char_Ok s ctx c ctx' :
  first_char s ctx = Ok (c, ctx') -> ctx' = ctx /\ exists rest, s = String c rest.
Proof. destruct s; simpl; [done|]. unfold ret. intros [= <- <-]. eauto. Qed.

Lemma ret_Ok {A} (a : A) ctx a' ctx' :
  ret a ctx = Ok (a', ctx') -> a' = a /\ ctx' = ctx.
Proof. unfold ret. by intros [= <- <-]. Qed.

(** Patching the instruction emitted at the end of [pre]. *)
Lemma patch_jump_Ok ctx pre i post u ctx' :
  ctx_data ctx = pre ++ i :: post ->
  patch_jump (length pre) ctx = Ok (u, ctx') ->
  ctx_data ctx' =
    pre ++ MkInstr (opcode i) [length pre + S (length post)] :: post /\
  ctx_consts ctx' = ctx_consts ctx /\
  ctx_symbols ctx' = ctx_symbols ctx /\
  ctx_locals ctx' = ctx_locals ctx.
Proof.
  intros Hd. unfold patch_jump. rewrite Hd, list_lookup_middle by done.
  intros [= _ <-]. simpl. split_and!; try done.
  rewrite insert_app_r_alt, Nat.sub_diag by lia. simpl.
  by rewrite length_app.
Qed.

Lemma patch_jump_succeeds ctx pre i post :
  ctx_data ctx = pre ++ i :: post ->
  exists ctx', patch_jump (length pre) ctx = Ok (tt, ctx').
Proof.
  intros Hd. unfold patch_jump. rewrite Hd, list_lookup_middle by done. eauto.
Qed.

(** ** The shape of the code of [If] and [While] *)

Definition compile_extends_at (n : Node) : Prop :=
  forall ctx ctx', compile n ctx = Ok (tt, ctx') -> extends ctx ctx'.

Lemma If_compile_shape cond body ctx ctx' :
  compile_extends_at body ->
  compile (If cond body) ctx = Ok (tt, ctx') ->
  exists ctx1 ctx2 ctx3 code_b,
    compile cond ctx = Ok (tt, ctx1) /\
    emit consts.JUMP_IF_FALSE [0] ctx1 = Ok (tt, ctx2) /\
    compile body ctx2 = Ok (tt, ctx3) /\
    ctx_data ctx3 =
      ctx_data ctx1 ++ MkInstr consts.JUMP_IF_FALSE [0] :: code_b /\
    ctx_data ctx' =
      ctx_data ctx1 ++
      MkInstr consts.JUMP_IF_FALSE [length (ctx_data ctx1) + length code_b + 2]
      :: code_b ++
      [MkInstr consts.JUMP [length (ctx_data ctx1) + length code_b + 3];
       MkInstr consts.LOAD_CONST [length (ctx_consts ctx3)]] /\
    ctx_consts ctx' = ctx_consts ctx3 ++ [w_nil] /\
    ctx_symbols ctx' = ctx_symbols ctx3 /\
    ctx_locals ctx' = ctx_locals ctx3.
Proof.
  intros Hbody H. simpl in H.
  inv_bind H. rename ctx0 into ctx1, E into Hcond.
  inv_bind H. apply get_pos_Ok in E as [-> ->].
  inv_bind H. rename ctx0 into ctx2, E into Hjif.
  inv_bind H. rename ctx0 into ctx3, E into Hb.
  inv_bind H. apply get_pos_Ok in E as [-> ->].
  inv_bind H. rename ctx0 into ctx4, E into Hjump.
  inv_bind H. rename ctx0 into ctx5, E into Hp1.
  inv_bind H. rename ctx0 into ctx6, E into Hnil.
  inv_bind H. rename ctx0 into ctx7, E into Hload.
  pose proof (emit_Ok _ _ _ _ _ Hjif) as (Hd2 & Hk2 & Hs2 & Hl2).
  destruct (ext_data _ _ (Hbody _ _ Hb)) as [code_b Hd3].
  rewrite Hd2, <- app_assoc in Hd3. simpl in Hd3.
  pose proof (emit_Ok _ _ _ _ _ Hjump) as (Hd4 & Hk4 & Hs4 & Hl4).
  rewrite Hd3, <- app_assoc in Hd4. simpl in Hd4.
  apply (patch_jump_Ok _ _ _ _ _ _ Hd4) in Hp1 as (Hd5 & Hk5 & Hs5 & Hl5).
  apply create_const_Ok in Hnil as (-> & Hd6 & Hk6 & Hs6 & Hl6).
  apply emit_Ok in Hload as (Hd7 & Hk7 & Hs7 & Hl7).
  rewrite Hd6, Hd5 in Hd7. simpl in Hd5, Hd7.
  assert (ctx_data ctx7 =
          (ctx_data ctx1 ++
             MkInstr consts.JUMP_IF_FALSE
               [length (ctx_data ctx1) + S (length (code_b ++ [MkInstr consts.JUMP [0]]))]
             :: code_b) ++
          MkInstr consts.JUMP [0] ::
          [MkInstr consts.LOAD_CONST [length (ctx_consts ctx5)]]) as Hd7'.
  { rewrite Hd7, <- !app_assoc. simpl. rewrite <- !app_assoc. done. }
  assert (length (ctx_data ctx3) =
          length (ctx_data ctx1 ++
             MkInstr consts.JUMP_IF_FALSE
               [length (ctx_data ctx1) + S (length (code_b ++ [MkInstr consts.JUMP [0]]))]
             :: code_b)) as Hlen.
  { rewrite Hd3, !length_app. simpl. done. }
  rewrite Hlen in H.
  apply (patch_jump_Ok _ _ _ _ _ _ Hd7') in H as (Hd8 & Hk8 & Hs8 & Hl8).
  exists ctx1, ctx2, ctx3, code_b. split_and!; try done.
  - rewrite Hd8, <- !app_assoc. simpl. rewrite !length_app. simpl.
    rewrite Hk5, Hk4.
    replace (length (ctx_data ctx1) + S (length code_b + 1))
      with (length (ctx_data ctx1) + length code_b + 2) by lia.
    replace (length (ctx_data ctx1) + S (length code_b) + 2)
      with (length (ctx_data ctx1) + length code_b + 3) by lia.
    done.
  - congruence.
  - congruence.
  - congruence.
Qed.

Lemma While_compile_shape cond body ctx ctx' :
  compile_extends_at body ->
  compile (While cond body) ctx = Ok (tt, ctx') ->
  exists ctx1 ctx2 ctx3 code_b,
    compile cond ctx = Ok (tt, ctx1) /\
    emit consts.JUMP_IF_FALSE [0] ctx1 = Ok (tt, ctx2) /\
    compile body ctx2 = Ok (tt, ctx3) /\
    ctx_data ctx3 =
      ctx_data ctx1 ++ MkInstr consts.JUMP_IF_FALSE [0] :: code_b /\
    ctx_data ctx' =
      ctx_data ctx1 ++
      MkInstr consts.JUMP_IF_FALSE [length (ctx_data ctx1) + length code_b + 3]
      :: code_b ++
      [MkInstr consts.DISCARD_TOP [];
       MkInstr consts.JUMP [length (ctx_data ctx)];
       MkInstr consts.LOAD_CONST [length (ctx_consts ctx3)]] /\
    ctx_consts ctx' = ctx_consts ctx3 ++ [w_nil] /\
    ctx_symbols ctx' = ctx_symbols ctx3 /\
    ctx_locals ctx' = ctx_locals ctx3.
Proof.
  intros Hbody H. simpl in H.
  inv_bind H. apply get_pos_Ok in E as [-> ->].
  inv_bind H. rename ctx0 into ctx1, E into Hcond.
  inv_bind H. apply get_pos_Ok in E as [-> ->].
  inv_bind H. rename ctx0 into ctx2, E into Hjif.
  inv_bind H. rename ctx0 into ctx3, E into Hb.
  inv_bind H. rename ctx0 into ctx4, E into Hdisc.
  inv_bind H. rename ctx0 into ctx5, E into Hjump.
  inv_bind H. rename ctx0 into ctx6, E into Hp.
  inv_bind H. rename ctx0 into ctx7, E into Hnil.
  pose proof (emit_Ok _ _ _ _ _ Hjif) as (Hd2 & Hk2 & Hs2 & Hl2).
  destruct (ext_data _ _ (Hbody _ _ Hb)) as [code_b Hd3].
  rewrite Hd2, <- app_assoc in Hd3. simpl in Hd3.
  apply emit_Ok in Hdisc as (Hd4 & Hk4 & Hs4 & Hl4).
  apply emit_Ok in Hjump as (Hd5 & Hk5 & Hs5 & Hl5).
  rewrite Hd4, Hd3, <- !app_assoc in Hd5. simpl in Hd5.
  apply (patch_jump_Ok _ _ _ _ _ _ Hd5) in Hp as (Hd6 & Hk6 & Hs6 & Hl6).
  apply create_const_Ok in Hnil as (-> & Hd7 & Hk7 & Hs7 & Hl7).
  apply emit_Ok in H as (Hd8 & Hk8 & Hs8 & Hl8).
  exists ctx1, ctx2, ctx3, code_b. split_and!; try done.
  - rewrite Hd8, Hd7, Hd6, <- !app_assoc. simpl. rewrite !length_app. simpl.
    rewrite <- app_assoc. simpl. rewrite Hk6, Hk5, Hk4.
    replace (length (ctx_data ctx1) + S (length code_b + 2))
      with (length (ctx_data ctx1) + length code_b + 3) by lia.
    done.
  - congruence.
  - congruence.
  - congruence.
Qed.

(** ** Compilation only extends the context *)

Lemma for_each_extends (f : Node -> M unit) (l : list Node) :
  Forall (fun n => forall ctx ctx', f n ctx = Ok (tt, ctx') -> extends ctx ctx') l ->
  forall ctx ctx', for_each f l ctx = Ok (tt, ctx') -> extends ctx ctx'.
Proof.
  induction 1 as [|n l Hn _ IH]; intros ctx ctx' H; simpl in H.
  - apply ret_Ok in H as [_ ->]. reflexivity.
  - inv_bind H. etrans; eauto.
Qed.

Lemma for_each_reversed_extends (f : Node -> M unit) (l : list Node) :
  Forall (fun n => forall ctx ctx', f n ctx = Ok (tt, ctx') -> extends ctx ctx') l ->
  forall ctx ctx', for_each_reversed f l ctx = Ok (tt, ctx') -> extends ctx ctx'.
Proof.
  induction 1 as [|n l Hn _ IH]; intros ctx ctx' H; simpl in H.
  - apply ret_Ok in H as [_ ->]. reflexivity.
  - inv_bind H. etrans; eauto.
Qed.

Lemma in_new_context_Ok {A} (m : M A) ctx a ctx' :
  in_new_context m ctx = Ok (a, ctx') ->
  ctx' = ctx /\ exists inner, m new_context = Ok (a, inner).
Proof.
  unfold in_new_context. destruct (m new_context) as [[a' inner]|]; [|done].
  intros [= <- <-]. eauto.
Qed.

Lemma Send_compile_extends (rc : M unit) method (ac : M unit) nargs ctx ctx' :
  (forall c c', rc c = Ok (tt, c') -> extends c c') ->
  (forall c c', ac c = Ok (tt, c') -> extends c c') ->
  Send_compile rc method ac nargs ctx = Ok (tt, ctx') -> extends ctx ctx'.
Proof.
  intros Hr Ha H. unfold Send_compile in H.
  inv_bind H. inv_bind H. inv_bind H.
  etrans; [eapply Hr; eassumption|].
  etrans; [eapply Ha; eassumption|].
  etrans; [eapply create_symbol_const_extends; eassumption|].
  eapply emit_extends; eassumption.
Qed.

Ltac step_extends :=
  match goal with
  | H : emit _ _ ?c = Ok (_, ?c') |- extends ?c _ =>
      etrans; [exact (emit_extends _ _ _ _ _ H)|]
  | H : create_const _ ?c = Ok (_, ?c') |- extends ?c _ =>
      etrans; [exact (create_const_extends _ _ _ _ H)|]
  | H : create_int_const _ ?c = Ok (_, ?c') |- extends ?c _ =>
      etrans; [exact (create_const_extends _ _ _ _ H)|]
  | H : create_string_const _ ?c = Ok (_, ?c') |- extends ?c _ =>
      etrans; [exact (create_const_extends _ _ _ _ H)|]
  | H : create_symbol_const _ ?c = Ok (_, ?c') |- extends ?c _ =>
      etrans; [exact (create_symbol_const_extends _ _ _ _ H)|]
  | H : create_local _ ?c = Ok (_, ?c') |- extends ?c _ =>
      etrans; [exact (create_local_extends _ _ _ _ H)|]
  | H : compile ?n ?c = Ok (_, ?c'), IH : compile_extends_at ?n |- extends ?c _ =>
      etrans; [exact (IH _ _ H)|]
  | H : in_new_context _ ?c = Ok (_, ?c') |- extends ?c _ =>
      apply in_new_context_Ok in H as [-> _]
  | H : get_pos ?c = Ok (_, ?c') |- extends ?c _ =>
      apply get_pos_Ok in H as [-> ->]
  | H : local_defined _ ?c = Ok (_, ?c') |- extends ?c _ =>
      apply local_defined_Ok in H as [-> _]
  | H : first_char _ ?c = Ok (_, ?c') |- extends ?c _ =>
      apply first_char_Ok in H as [-> _]
  | H : ret _ ?c = Ok (_, ?c') |- extends ?c _ =>
      apply ret_Ok in H as [_ ->]
  | |- extends ?c ?c => reflexivity
  end.

Theorem compile_extends (n : Node) : compile_extends_at n.
Proof.
  induction n using Node_ind'; intros ctx ctx' HC.
  - simpl in HC. inv_binds HC. repeat step_extends.
  - simpl in HC. eapply for_each_extends; eauto.
  - simpl in HC. inv_bind HC. destruct dont_pop; simpl in HC; repeat step_extends.
  - simpl in HC. inv_bind HC. destruct (isupper a); inv_binds HC; repeat step_extends.
  - simpl in HC. inv_binds HC. repeat step_extends.
  - apply If_compile_shape in HC as
      (c1 & c2 & c3 & code_b & Hc & Hj & Hb & Hd3 & Hd & Hk & Hs & Hl); [|done].
    etrans; [exact (IHn1 _ _ Hc)|].
    pose proof (IHn2 _ _ Hb) as [_ k3 s3 l3 n3].
    apply emit_Ok in Hj as (Hd2 & Hk2 & Hs2 & Hl2).
    rewrite ?Hk2, ?Hs2, ?Hl2 in *.
    split; rewrite ?Hd, ?Hk, ?Hs, ?Hl; try done.
    + by apply prefix_app_r.
    + etrans; [exact k3|]. by apply prefix_app_r.
  - apply While_compile_shape in HC as
      (c1 & c2 & c3 & code_b & Hc & Hj & Hb & Hd3 & Hd & Hk & Hs & Hl); [|done].
    etrans; [exact (IHn1 _ _ Hc)|].
    pose proof (IHn2 _ _ Hb) as [_ k3 s3 l3 n3].
    apply emit_Ok in Hj as (Hd2 & Hk2 & Hs2 & Hl2).
    rewrite ?Hk2, ?Hs2, ?Hl2 in *.
    split; rewrite ?Hd, ?Hk, ?Hs, ?Hl; try done.
    + by apply prefix_app_r.
    + etrans; [exact k3|]. by apply prefix_app_r.
  - simpl in HC. inv_binds HC. repeat step_extends.
  - simpl in HC. inv_binds HC. repeat step_extends.
  - simpl in HC. inv_binds HC. repeat step_extends.
  - simpl in HC. eapply Send_compile_extends; [..|exact HC]; [done|].
    intros c c' Hc. simpl in Hc. inv_bind Hc. apply ret_Ok in E as [_ ->].
    eauto.
  - simpl in HC. eapply Send_compile_extends; [..|exact HC]; [done|].
    apply for_each_reversed_extends. done.
  - simpl in HC. unfold Self_compile in HC. repeat step_extends.
  - simpl in HC. destruct (named_consts name).
    { inv_binds HC. repeat step_extends. }
    destruct (String.eqb name "self").
    { repeat step_extends. }
    inv_bind HC. destruct a.
    { inv_binds HC. repeat step_extends. }
    inv_bind HC. destruct (isupper a).
    { inv_binds HC. repeat step_extends. }
    repeat step_extends.
    eapply Send_compile_extends; [..|exact HC].
    + intros c c' Hc. unfold Self_compile in Hc. repeat step_extends.
    + intros c c' Hc. simpl in Hc. repeat step_extends.
  - simpl in HC. inv_binds HC. repeat step_extends.
  - simpl in HC. inv_bind HC. etrans; [eapply for_each_extends; eauto|].
    repeat step_extends.
  - simpl in HC. inv_binds HC. repeat step_extends.
  - simpl in HC. inv_binds HC. repeat step_extends.
Qed.

(** ** [Send]: receiver, arguments in reverse, dispatch *)

(** [emits_in_order ns ctx code ctx']: compiling the nodes [ns] one after the
    other, starting in [ctx], succeeds, ends in [ctx'] and appends [code],
    the code of the first node first. *)
Inductive emits_in_order :
  list Node -> CompilerContext -> list Instr -> CompilerContext -> Prop :=
| emits_nil ctx : emits_in_order [] ctx [] ctx
| emits_cons n ns ctx ctx1 ctx2 code codes :
    compile n ctx = Ok (tt, ctx1) ->
    ctx_data ctx1 = ctx_data ctx ++ code ->
    emits_in_order ns ctx1 codes ctx2 ->
    emits_in_order (n :: ns) ctx (code ++ codes) ctx2.

Lemma emits_in_order_data ns ctx code ctx' :
  emits_in_order ns ctx code ctx' -> ctx_data ctx' = ctx_data ctx ++ code.
Proof.
  induction 1 as [|n ns ctx ctx1 ctx2 code codes Hn Hd _ IH].
  - by rewrite app_nil_r.
  - by rewrite IH, Hd, app_assoc.
Qed.

Lemma emits_in_order_snoc ns n ctx ctx1 ctx2 codes code :
  emits_in_order ns ctx codes ctx1 ->
  compile n ctx1 = Ok (tt, ctx2) ->
  ctx_data ctx2 = ctx_data ctx1 ++ code ->
  emits_in_order (ns ++ [n]) ctx (codes ++ code) ctx2.
Proof.
  induction 1 as [|n0 ns ctx ctx0 ctx1 code0 codes Hn Hd _ IH]; intros Hc Hd2.
  - simpl. rewrite <- (app_nil_r code). econstructor; eauto. constructor.
  - simpl. rewrite <- app_assoc. econstructor; eauto.
Qed.

Lemma for_each_emits ns ctx ctx' :
  for_each compile ns ctx = Ok (tt, ctx') ->
  exists code, emits_in_order ns ctx code ctx'.
Proof.
  revert ctx. induction ns as [|n ns IH]; intros ctx H; simpl in H.
  - apply ret_Ok in H as [_ ->]. eexists. constructor.
  - inv_bind H. destruct (ext_data _ _ (compile_extends _ _ _ E)) as [code Hd].
    destruct (IH _ H) as [codes Hs]. eexists. econstructor; eauto.
Qed.

Lemma for_each_reversed_emits ns ctx ctx' :
  for_each_reversed compile ns ctx = Ok (tt, ctx') ->
  exists code, emits_in_order (rev ns) ctx code ctx'.
Proof.
  revert ctx ctx'. induction ns as [|n ns IH]; intros ctx ctx' H; simpl in H.
  - apply ret_Ok in H as [_ ->]. eexists. constructor.
  - inv_bind H. destruct (IH _ _ E) as [codes Hs].
    destruct (ext_data _ _ (compile_extends _ _ _ H)) as [code Hd].
    eexists. simpl. eapply emits_in_order_snoc; eauto.
Qed.

(** [BinOp] is [Send] of the operator to the left operand. *)
Lemma BinOp_compile op lhs rhs ctx :
  compile (BinOp op lhs rhs) ctx = compile (Send lhs op [rhs]) ctx.
Proof. reflexivity. Qed.

(** C3.  [Send.compile] emits the code of the receiver, then the code of
    the arguments from the last one to the first one, then one [SEND]
    instruction whose operands are the symbol index of the method name and
    the number of arguments. *)
Theorem Send_compile_order receiver method args ctx ctx' :
  compile (Send receiver method args) ctx = Ok (tt, ctx') ->
  exists ctx1 ctx2 code_r code_args sym,
    compile receiver ctx = Ok (tt, ctx1) /\
    ctx_data ctx1 = ctx_data ctx ++ code_r /\
    emits_in_order (rev args) ctx1 code_args ctx2 /\
    ctx_data ctx' =
      ctx_data ctx ++ code_r ++ code_args ++
      [MkInstr consts.SEND [sym; length args]] /\
    ctx_symbols ctx' !! sym = Some method.
Proof.
  intros H. simpl in H. unfold Send_compile in H.
  inv_bind H. rename ctx0 into ctx1, E into Hr.
  inv_bind H. rename ctx0 into ctx2, E into Ha.
  inv_bind H. rename a into sym, E into Hs.
  destruct (ext_data _ _ (compile_extends _ _ _ Hr)) as [code_r Hd1].
  apply for_each_reversed_emits in Ha as [code_args Ha].
  pose proof (emits_in_order_data _ _ _ _ Ha) as Hd2.
  apply create_symbol_const_Ok in Hs as (Hsym & _ & Hd3 & _).
  apply emit_Ok in H as (Hd & _ & Hs' & _).
  exists ctx1, ctx2, code_r, code_args, sym. split_and!; try done.
  - rewrite Hd, Hd3, Hd2, Hd1, <- !app_assoc. done.
  - by rewrite Hs'.
Qed.

Lemma Send_compile_order_witness :
  exists ctx1 ctx2 code_r code_args sym,
    compile (ConstantInt 7) new_context = Ok (tt, ctx1) /\
    ctx_data ctx1 = [] ++ code_r /\
    emits_in_order (rev [ConstantInt 1; ConstantString "b"]) ctx1 code_args ctx2 /\
    [MkInstr consts.LOAD_CONST [0];
     MkInstr consts.LOAD_CONST [1]; MkInstr consts.COPY_STRING [];
     MkInstr consts.LOAD_CONST [2];
     MkInstr consts.SEND [0; 2]] =
      [] ++ code_r ++ code_args ++ [MkInstr consts.SEND [sym; 2]] /\
    ["puts"] !! sym = Some "puts".
Proof.
  exact (Send_compile_order (ConstantInt 7) "puts"
           [ConstantInt 1; ConstantString "b"] new_context _ eq_refl).
Defined.

(** ** Operand counts *)

(** The property of 6: an instruction carries zero or one operand. *)
Definition at_most_one_operand (i : Instr) : Prop := length (operands i) <= 1.

(** The number of operands [ast.py] passes to [emit] with each opcode. *)
Definition num_args (c : consts.Opcode) : nat :=
  match c with
  | consts.SEND => 2
  | consts.LOAD_CONST | consts.LOAD_LOCAL | consts.STORE_LOCAL
  | consts.LOAD_CONSTANT | consts.STORE_CONSTANT
  | consts.LOAD_INSTANCE_VAR | consts.STORE_INSTANCE_VAR
  | consts.JUMP | consts.JUMP_IF_FALSE | consts.BUILD_ARRAY => 1
  | consts.LOAD_SELF | consts.DISCARD_TOP | consts.BUILD_CLASS
  | consts.DEFINE_FUNCTION | consts.COPY_STRING | consts.RETURN => 0
  end.

Definition operand_count_ok (i : Instr) : Prop :=
  length (operands i) = num_args (opcode i).

(** The same for a constant: all instructions of a code object, and of the
    code objects in its constant pool. *)
Fixpoint const_operands_ok (w : W_Object) : Prop :=
  match w with
  | W_Code code cpool _ _ =>
      Forall operand_count_ok code /\
      (fix all (l : list W_Object) : Prop :=
         match l with
         | [] => True
         | x :: rest => const_operands_ok x /\ all rest
         end) cpool
  | _ => True
  end.

Lemma const_operands_ok_code code cpool spool slots :
  const_operands_ok (W_Code code cpool spool slots) <->
  Forall operand_count_ok code /\ Forall const_operands_ok cpool.
Proof.
  simpl. apply and_iff_compat_l.
  induction cpool as [|x rest IH]; [ by rewrite Forall_nil |].
  rewrite Forall_cons. by rewrite IH.
Qed.

(** What a compile pass adds to a unit: instructions satisfying [P] and
    constants satisfying [Q]. *)
Definition grows (P : Instr -> Prop) (Q : W_Object -> Prop)
    (ctx ctx' : CompilerContext) : Prop :=
  exists code cs,
    ctx_data ctx' = ctx_data ctx ++ code /\
    ctx_consts ctx' = ctx_consts ctx ++ cs /\
    Forall P code /\ Forall Q cs.

Section grows.
Context (P : Instr -> Prop) (Q : W_Object -> Prop).

Lemma grows_refl ctx : grows P Q ctx ctx.
Proof. exists [], []. by rewrite !app_nil_r. Qed.

Lemma grows_same ctx ctx' :
  ctx_data ctx' = ctx_data ctx -> ctx_consts ctx' = ctx_consts ctx ->
  grows P Q ctx ctx'.
Proof. intros Hd Hk. exists [], []. by rewrite Hd, Hk, !app_nil_r. Qed.

Lemma grows_trans c1 c2 c3 :
  grows P Q c1 c2 -> grows P Q c2 c3 -> grows P Q c1 c3.
Proof.
  intros (d1 & k1 & Hd1 & Hk1 & HP1 & HQ1) (d2 & k2 & Hd2 & Hk2 & HP2 & HQ2).
  exists (d1 ++ d2), (k1 ++ k2).
  rewrite Hd2, Hd1, Hk2, Hk1, !app_assoc, !Forall_app. done.
Qed.

Lemma emit_grows c args ctx u ctx' :
  P (MkInstr c args) ->
  emit c args ctx = Ok (u, ctx') -> grows P Q ctx ctx'.
Proof.
  intros HP (Hd & Hk & _)%emit_Ok. exists [MkInstr c args], [].
  rewrite Hd, Hk, app_nil_r. split_and!; auto.
Qed.

Lemma create_const_grows w ctx k ctx' :
  Q w -> create_const w ctx = Ok (k, ctx') -> grows P Q ctx ctx'.
Proof.
  intros HQ (_ & Hd & Hk & _)%create_const_Ok. exists [], [w].
  rewrite Hd, Hk, app_nil_r. split_and!; auto.
Qed.

Lemma for_each_grows (f : Node -> M unit) (l : list Node) :
  Forall (fun n => forall c c', f n c = Ok (tt, c') -> grows P Q c c') l ->
  forall ctx ctx', for_each f l ctx = Ok (tt, ctx') -> grows P Q ctx ctx'.
Proof.
  induction 1 as [|n l Hn _ IH]; intros ctx ctx' H; simpl in H.
  - apply ret_Ok in H as [_ ->]. apply grows_refl.
  - inv_bind H. eapply grows_trans; eauto.
Qed.

Lemma for_each_reversed_grows (f : Node -> M unit) (l : list Node) :
  Forall (fun n => forall c c', f n c = Ok (tt, c') -> grows P Q c c') l ->
  forall ctx ctx', for_each_reversed f l ctx = Ok (tt, ctx') ->
                   grows P Q ctx ctx'.
Proof.
  induction 1 as [|n l Hn _ IH]; intros ctx ctx' H; simpl in H.
  - apply ret_Ok in H as [_ ->]. apply grows_refl.
  - inv_bind H. eapply grows_trans; eauto.
Qed.

Lemma for_each_create_local_data l ctx ctx' :
  for_each (fun name => create_local name ;; ret tt) l ctx = Ok (tt, ctx') ->
  ctx_data ctx' = ctx_data ctx /\ ctx_consts ctx' = ctx_consts ctx /\
  ctx_symbols ctx' = ctx_symbols ctx.
Proof.
  revert ctx. induction l as [|x l IH]; intros ctx H; simpl in H.
  - by apply ret_Ok in H as [_ ->].
  - inv_bind H. inv_bind E. apply ret_Ok in E as [_ ->].
    apply create_local_Ok in E0 as (_ & Hd & Hk & Hs & _).
    destruct (IH _ H) as (-> & -> & ->). done.
Qed.
End grows.

Ltac step_grows :=
  match goal with
  | H : emit _ _ ?c = Ok (_, ?c') |- grows _ _ ?c _ =>
      eapply grows_trans; [exact (emit_grows _ _ _ _ _ _ _ eq_refl H)|]
  | H : create_const _ ?c = Ok (_, ?c') |- grows _ _ ?c _ =>
      eapply grows_trans;
      [first [ exact (create_const_grows _ _ _ _ _ _ I H)
             | eapply create_const_grows; [eassumption | exact H] ]|]
  | H : create_int_const _ ?c = Ok (_, ?c') |- grows _ _ ?c _ =>
      eapply grows_trans; [exact (create_const_grows _ _ _ _ _ _ I H)|]
  | H : create_string_const _ ?c = Ok (_, ?c') |- grows _ _ ?c _ =>
      eapply grows_trans; [exact (create_const_grows _ _ _ _ _ _ I H)|]
  | H : create_symbol_const _ ?c = Ok (_, ?c') |- grows _ _ ?c _ =>
      let Hd := fresh in let Hk := fresh in
      apply create_symbol_const_Ok in H as (_ & _ & Hd & Hk & _);
      eapply grows_trans; [exact (grows_same _ _ _ _ Hd Hk)|]
  | H : create_local _ ?c = Ok (_, ?c') |- grows _ _ ?c _ =>
      let Hd := fresh in let Hk := fresh in
      apply create_local_Ok in H as (_ & Hd & Hk & _);
      eapply grows_trans; [exact (grows_same _ _ _ _ Hd Hk)|]
  | H : compile ?n ?c = Ok (_, ?c'),
    IH : forall ctx ctx', compile ?n ctx = Ok (tt, ctx') -> grows _ _ ctx ctx'
    |- grows _ _ ?c _ =>
      eapply grows_trans; [exact (IH _ _ H)|]
  | H : get_pos ?c = Ok (_, ?c') |- grows _ _ ?c _ =>
      apply get_pos_Ok in H as [-> ->]
  | H : local_defined _ ?c = Ok (_, ?c') |- grows _ _ ?c _ =>
      apply local_defined_Ok in H as [-> _]
  | H : first_char _ ?c = Ok (_, ?c') |- grows _ _ ?c _ =>
      apply first_char_Ok in H as [-> _]
  | H : ret _ ?c = Ok (_, ?c') |- grows _ _ ?c _ =>
      apply ret_Ok in H as [_ ->]
  | |- grows _ _ ?c ?c => apply grows_refl
  end.

(** A unit compiled from scratch into a code object. *)
Lemma newcode_operands_ok inner bc ctx :
  grows operand_count_ok const_operands_ok new_context inner ->
  create_bytecode inner = Ok (bc, ctx) ->
  const_operands_ok (space.newcode bc).
Proof.
  intros (code & cs & Hd & Hk & HP & HQ). unfold create_bytecode.
  intros [= <- _]. unfold space.newcode.
  apply const_operands_ok_code. simpl in Hd, Hk |- *. by rewrite Hd, Hk.
Qed.

(** C2 (amended).  Every instruction a compile pass emits, in the unit
    itself and in the nested units it assembles into code objects, carries
    the number of operands fixed by its opcode: two for [SEND] (the method
    symbol and the argument count), one for the loads and stores with an
    index, the jumps and [BUILD_ARRAY], none for the others. *)
Theorem compile_operand_counts (n : Node) :
  forall ctx ctx',
    compile n ctx = Ok (tt, ctx') ->
    grows operand_count_ok const_operands_ok ctx ctx'.
Proof.
  induction n using Node_ind'; intros ctx ctx' HC.
  - simpl in HC. inv_binds HC. repeat step_grows.
  - simpl in HC. eapply for_each_grows; eauto.
  - simpl in HC. inv_bind HC. destruct dont_pop; simpl in HC; repeat step_grows.
  - simpl in HC. inv_bind HC. destruct (isupper a); inv_binds HC; repeat step_grows.
  - simpl in HC. inv_binds HC. repeat step_grows.
  - apply If_compile_shape in HC as
      (c1 & c2 & c3 & code_b & Hc & Hj & Hb & Hd3 & Hd & Hk & Hs & Hl);
      [|apply compile_extends].
    eapply grows_trans; [exact (IHn1 _ _ Hc)|].
    destruct (IHn2 _ _ Hb) as (code_b' & cs & Hd3' & Hk3 & HP & HQ).
    apply emit_Ok in Hj as (Hd2 & Hk2 & _).
    rewrite Hd2, <- app_assoc in Hd3'. simpl in Hd3'.
    assert (code_b' = code_b) as -> by (rewrite Hd3 in Hd3'; by simplify_list_eq).
    eexists _, (cs ++ [w_nil]). split_and!; [exact Hd | | |].
    + by rewrite Hk, Hk3, Hk2, app_assoc.
    + rewrite Forall_cons, Forall_app, !Forall_cons. split_and!; try done.
    + rewrite Forall_app, Forall_singleton. done.
  - apply While_compile_shape in HC as
      (c1 & c2 & c3 & code_b & Hc & Hj & Hb & Hd3 & Hd & Hk & Hs & Hl);
      [|apply compile_extends].
    eapply grows_trans; [exact (IHn1 _ _ Hc)|].
    destruct (IHn2 _ _ Hb) as (code_b' & cs & Hd3' & Hk3 & HP & HQ).
    apply emit_Ok in Hj as (Hd2 & Hk2 & _).
    rewrite Hd2, <- app_assoc in Hd3'. simpl in Hd3'.
    assert (code_b' = code_b) as -> by (rewrite Hd3 in Hd3'; by simplify_list_eq).
    eexists _, (cs ++ [w_nil]). split_and!; [exact Hd | | |].
    + by rewrite Hk, Hk3, Hk2, app_assoc.
    + rewrite Forall_cons, Forall_app, !Forall_cons. split_and!; try done.
    + rewrite Forall_app, Forall_singleton. done.
  - simpl in HC. inv_bind HC. inv_bind HC. inv_bind HC. inv_bind HC.
    inv_bind HC. inv_bind HC. rename E4 into Hin, a1 into bytecode.
    inv_binds HC.
    apply in_new_context_Ok in Hin as (-> & inner & Hin).
    inv_binds Hin.
    assert (const_operands_ok (space.newcode bytecode)) as Hbc.
    { eapply newcode_operands_ok; [|eassumption]. repeat step_grows. }
    repeat step_grows.
  - simpl in HC. inv_bind HC. rename E into Hin, a into bytecode.
    apply in_new_context_Ok in Hin as (-> & inner & Hin).
    inv_bind Hin. rename E into Hargs. inv_binds Hin.
    inv_binds HC.
    assert (const_operands_ok (space.newcode bytecode)) as Hbc.
    { eapply newcode_operands_ok; [|eassumption].
      apply (for_each_create_local_data) in Hargs as (Hd & Hk & _).
      eapply grows_trans; [exact (grows_same _ _ _ _ Hd Hk)|].
      repeat step_grows. }
    repeat step_grows.
  - simpl in HC. inv_binds HC. repeat step_grows.
  - simpl in HC. unfold Send_compile in HC.
    inv_bind HC. rename E into Hl.
    inv_bind HC. rename E into Hr. inv_bind Hr. apply ret_Ok in E as [_ ->].
    inv_binds HC. repeat step_grows.
  - simpl in HC. unfold Send_compile in HC. inv_binds HC.
    repeat step_grows.
    eapply grows_trans; [eapply for_each_reversed_grows; eauto|].
    repeat step_grows.
  - simpl in HC. unfold Self_compile in HC. repeat step_grows.
  - simpl in HC. destruct (named_consts name) as [w|] eqn:Hn.
    { assert (const_operands_ok w) as Hw
        by (unfold named_consts in Hn; repeat case_match; simplify_eq; exact I).
      inv_binds HC. repeat step_grows. }
    destruct (String.eqb name "self").
    { repeat step_grows. }
    inv_bind HC. destruct a.
    { inv_binds HC. repeat step_grows. }
    inv_bind HC. destruct (isupper a).
    { inv_binds HC. repeat step_grows. }
    unfold Send_compile, Self_compile in HC. simpl in HC. inv_binds HC.
    repeat step_grows.
  - simpl in HC. inv_binds HC. repeat step_grows.
  - simpl in HC. inv_bind HC.
    eapply grows_trans; [eapply for_each_grows; eauto|].
    repeat step_grows.
  - simpl in HC. inv_binds HC. repeat step_grows.
  - simpl in HC. inv_binds HC. repeat step_grows.
Qed.

Lemma compile_operand_counts_witness :
  grows operand_count_ok const_operands_ok new_context
    {| ctx_data := [MkInstr consts.LOAD_SELF []; MkInstr consts.SEND [0; 0]];
       ctx_consts := []; ctx_symbols := ["foo"]; ctx_locals := ∅ |}.
Proof.
  exact (compile_operand_counts (Send Self "foo" []) new_context _ eq_refl).
Defined.

(** C2 as stated: all instructions a node emits carry at most one operand. *)
Definition emits_at_most_one_operand (n : Node) : Prop :=
  forall ctx ctx',
    compile n ctx = Ok (tt, ctx') ->
    grows at_most_one_operand (fun _ => True) ctx ctx'.

(** C2, counterexample.  The dispatch instruction of [self.foo()] carries two
    operands. *)
Lemma Send_emits_two_operands :
  ~ emits_at_most_one_operand (Send Self "foo" []).
Proof.
  intros H. destruct (H new_context _ eq_refl) as (code & cs & Hd & _ & HP & _).
  simpl in Hd. subst code.
  apply Forall_cons in HP as [_ HP]. apply Forall_cons in HP as [HP _].
  unfold at_most_one_operand in HP. simpl in HP. lia.
Qed.

(** ** [Variable]: the resolution order *)

(** "A name beginning with an uppercase letter". *)
Definition begins_with_uppercase (name : string) : bool :=
  match name with
  | String c _ => isupper c
  | EmptyString => false
  end.

(** The five-step resolution order of 4.1, first match wins, as the
    specification words it: the named singletons, [self], a local already
    bound in the unit, a name beginning with an uppercase letter, and
    otherwise a zero-argument send to the current receiver. *)
Definition Variable_resolution_spec (name : string) : M unit :=
  fun ctx =>
    if decide (name = "true") then
      (k <- create_const w_true ;; emit consts.LOAD_CONST [k]) ctx
    else if decide (name = "false") then
      (k <- create_const w_false ;; emit consts.LOAD_CONST [k]) ctx
    else if decide (name = "nil") then
      (k <- create_const w_nil ;; emit consts.LOAD_CONST [k]) ctx
    else if decide (name = "self") then
      emit consts.LOAD_SELF [] ctx
    else
      match ctx_locals ctx !! name with
      | Some slot => emit consts.LOAD_LOCAL [slot] ctx
      | None =>
          if begins_with_uppercase name then
            (k <- create_symbol_const name ;; emit consts.LOAD_CONSTANT [k]) ctx
          else
            compile (Send Self name []) ctx
      end.

(** C4 (amended).  [Variable.compile] follows the five-step order for every
    name that is not empty, and for the empty name when it is bound as a local
    of the unit. *)
Theorem Variable_resolution_order name ctx :
  name <> "" \/ is_Some (ctx_locals ctx !! name) ->
  compile (Variable_ name) ctx = Variable_resolution_spec name ctx.
Proof.
  intros Hname. unfold Variable_resolution_spec. simpl. unfold named_consts.
  destruct (String.eqb_spec name "true") as [->|H1];
    [ by rewrite decide_True | rewrite (decide_False _ _ H1) ].
  destruct (String.eqb_spec name "false") as [->|H2];
    [ by rewrite decide_True | rewrite (decide_False _ _ H2) ].
  destruct (String.eqb_spec name "nil") as [->|H3];
    [ by rewrite decide_True | rewrite (decide_False _ _ H3) ].
  destruct (String.eqb_spec name "self") as [->|H4];
    [ by rewrite decide_True | rewrite (decide_False _ _ H4) ].
  unfold bind at 1. unfold local_defined.
  destruct (ctx_locals ctx !! name) as [slot|] eqn:Hl.
  - rewrite bool_decide_true by eauto.
    unfold bind, create_local. by rewrite Hl.
  - rewrite bool_decide_false by (by intros [? ?]).
    destruct Hname as [Hne | [? ?]]; [|done].
    destruct name as [|c rest]; [done|]. simpl.
    unfold bind at 1. simpl. destruct (isupper c); reflexivity.
Qed.

Lemma Variable_resolution_order_witness :
  compile (Variable_ "puts") new_context =
    Variable_resolution_spec "puts" new_context /\
  compile (Variable_ "puts") new_context =
    Ok (tt, {| ctx_data := [MkInstr consts.LOAD_SELF [];
                            MkInstr consts.SEND [0; 0]];
               ctx_consts := []; ctx_symbols := ["puts"]; ctx_locals := ∅ |}).
Proof.
  split; [|reflexivity].
  apply (Variable_resolution_order "puts" new_context). left. discriminate.
Defined.

(** C4, counterexample.  The empty name, unbound, falls through to the
    fourth test, whose [self.name[0]] fails: nothing is emitted, where the
    fifth step would send the empty message to the receiver. *)
Lemma Variable_empty_name_not_resolved :
  compile (Variable_ "") new_context = Raise IndexError /\
  Variable_resolution_spec "" new_context =
    Ok (tt, {| ctx_data := [MkInstr consts.LOAD_SELF [];
                            MkInstr consts.SEND [0; 0]];
               ctx_consts := []; ctx_symbols := [""]; ctx_locals := ∅ |}) /\
  compile (Variable_ "") new_context <> Variable_resolution_spec "" new_context.
Proof. split_and!; [reflexivity | reflexivity | discriminate]. Qed.

(** ** Totality on non-empty names *)

(** The two names whose first character [compile] reads, [Variable.name] and
    [Assignment.target], are non-empty everywhere in the tree that gets
    compiled. *)
Fixpoint names_nonempty (n : Node) : Prop :=
  match n with
  | Main block => names_nonempty block
  | Block stmts =>
      (fix all (l : list Node) : Prop :=
         match l with [] => True | x :: rest => names_nonempty x /\ all rest end)
        stmts
  | Statement expr _ => names_nonempty expr
  | Assignment target value => target <> "" /\ names_nonempty value
  | InstanceVariableAssignment _ value => names_nonempty value
  | If cond body => names_nonempty cond /\ names_nonempty body
  | While cond body => names_nonempty cond /\ names_nonempty body
  | Class _ _ body => names_nonempty body
  | Function _ _ body => names_nonempty body
  | Return expr => names_nonempty expr
  | BinOp _ lhs rhs => names_nonempty lhs /\ names_nonempty rhs
  | Send receiver _ args =>
      names_nonempty receiver /\
      (fix all (l : list Node) : Prop :=
         match l with [] => True | x :: rest => names_nonempty x /\ all rest end)
        args
  | Self => True
  | Variable_ name => name <> ""
  | InstanceVariable _ => True
  | Array items =>
      (fix all (l : list Node) : Prop :=
         match l with [] => True | x :: rest => names_nonempty x /\ all rest end)
        items
  | ConstantInt _ => True
  | ConstantString _ => True
  end.

Lemma names_nonempty_all (l : list Node) :
  (fix all (l : list Node) : Prop :=
     match l with [] => True | x :: rest => names_nonempty x /\ all rest end) l
  <-> Forall names_nonempty l.
Proof.
  induction l as [|x rest IH]; [ by rewrite Forall_nil |].
  rewrite Forall_cons. by rewrite IH.
Qed.

Definition succeeds {A} (m : M A) (ctx : CompilerContext) : Prop :=
  exists a ctx', m ctx = Ok (a, ctx').

Lemma succeeds_bind {A B} (m : M A) (k : A -> M B) ctx a ctx1 :
  m ctx = Ok (a, ctx1) -> succeeds (k a) ctx1 -> succeeds (bind m k) ctx.
Proof.
  intros Hm (b & ctx' & Hk). exists b, ctx'.
  by rewrite (bind_Ok_intro _ _ _ _ _ Hm).
Qed.

Lemma succeeds_unit (m : M unit) ctx :
  succeeds m ctx -> exists ctx', m ctx = Ok (tt, ctx').
Proof. intros ([] & ctx' & H). eauto. Qed.

Lemma patch_jump_lt pos ctx :
  pos < length (ctx_data ctx) ->
  exists ctx', patch_jump pos ctx = Ok (tt, ctx') /\
               length (ctx_data ctx') = length (ctx_data ctx).
Proof.
  intros Hlt. unfold patch_jump.
  destruct (lookup_lt_is_Some_2 _ _ Hlt) as [i ->].
  eexists. split; [done|]. simpl. by rewrite length_insert.
Qed.

Lemma extends_length ctx ctx' :
  extends ctx ctx' -> length (ctx_data ctx) <= length (ctx_data ctx').
Proof. intros [Hd _ _ _ _]. by apply prefix_length. Qed.

Lemma for_each_succeeds (l : list Node) :
  Forall (fun n => forall ctx, succeeds (compile n) ctx) l ->
  forall ctx, succeeds (for_each compile l) ctx.
Proof.
  induction 1 as [|n l Hn _ IH]; intros ctx; simpl.
  - by exists tt, ctx.
  - destruct (Hn ctx) as ([] & c1 & H1). eapply succeeds_bind; eauto.
Qed.

Lemma for_each_reversed_succeeds (l : list Node) :
  Forall (fun n => forall ctx, succeeds (compile n) ctx) l ->
  forall ctx, succeeds (for_each_reversed compile l) ctx.
Proof.
  induction 1 as [|n l Hn _ IH]; intros ctx; simpl.
  - by exists tt, ctx.
  - destruct (IH ctx) as ([] & c1 & H1). eapply succeeds_bind; eauto.
Qed.

Lemma create_symbol_const_succeeds name ctx :
  succeeds (create_symbol_const name) ctx.
Proof.
  unfold succeeds, create_symbol_const.
  destruct (list_find _ _) as [[i s]|]; eauto.
Qed.

Lemma create_local_succeeds name ctx : succeeds (create_local name) ctx.
Proof.
  unfold succeeds, create_local. destruct (ctx_locals ctx !! name); eauto.
Qed.

Lemma for_each_create_local_succeeds (l : list string) ctx :
  succeeds (for_each (fun name => create_local name ;; ret tt) l) ctx.
Proof.
  revert ctx. induction l as [|x l IH]; intros ctx; simpl.
  - by exists tt, ctx.
  - destruct (create_local_succeeds x ctx) as (k & c1 & H).
    eapply succeeds_bind; [|apply IH].
    by rewrite (bind_Ok_intro _ _ _ _ _ H).
Qed.

Ltac run_step :=
  lazymatch goal with
  | IH : forall ctx, succeeds (compile ?n) ctx
    |- succeeds (bind (compile ?n) _) ?c =>
      let c1 := fresh "ctx" in
      let H := fresh "Hrun" in
      destruct (succeeds_unit _ _ (IH c)) as [c1 H];
      eapply succeeds_bind; [exact H|]
  | |- succeeds (bind (create_symbol_const ?s) _) ?c =>
      let k := fresh "k" in
      let c1 := fresh "ctx" in
      let H := fresh "Hsym" in
      destruct (create_symbol_const_succeeds s c) as (k & c1 & H);
      eapply succeeds_bind; [exact H|]
  | |- succeeds (bind (create_local ?s) _) ?c =>
      let k := fresh "k" in
      let c1 := fresh "ctx" in
      let H := fresh "Hloc" in
      destruct (create_local_succeeds s c) as (k & c1 & H);
      eapply succeeds_bind; [exact H|]
  | |- succeeds (bind (emit _ _) _) _ =>
      eapply succeeds_bind; [reflexivity|]
  | |- succeeds (bind (create_const _) _) _ =>
      eapply succeeds_bind; [reflexivity|]
  | |- succeeds (bind (create_int_const _) _) _ =>
      eapply succeeds_bind; [reflexivity|]
  | |- succeeds (bind (create_string_const _) _) _ =>
      eapply succeeds_bind; [reflexivity|]
  | |- succeeds (bind get_pos _) _ =>
      eapply succeeds_bind; [reflexivity|]
  | |- succeeds (bind (ret _) _) _ =>
      eapply succeeds_bind; [reflexivity|]
  | |- succeeds (emit _ _) _ => eexists _, _; reflexivity
  | |- succeeds (ret _) _ => eexists _, _; reflexivity
  | |- succeeds create_bytecode _ => eexists _, _; reflexivity
  | IH : forall ctx, succeeds (compile ?n) ctx |- succeeds (compile ?n) ?c =>
      apply IH
  end.

Lemma Forall_mp {A} (P Q : A -> Prop) (l : list A) :
  Forall (fun x => P x -> Q x) l -> Forall P l -> Forall Q l.
Proof.
  induction 1 as [|x l Hx _ IH]; intros HP; [constructor|].
  apply Forall_cons in HP as [HPx HP]. constructor; auto.
Qed.

Lemma compile_succeeds (n : Node) :
  names_nonempty n -> forall ctx, succeeds (compile n) ctx.
Proof.
  induction n using Node_ind'; intros Hne ctx; simpl in Hne |- *.
  - specialize (IHn Hne). repeat run_step.
  - apply for_each_succeeds. apply names_nonempty_all in Hne.
    exact (Forall_mp _ _ _ H Hne).
  - specialize (IHn Hne). run_step. destruct dont_pop; simpl; run_step.
  - destruct Hne as [Ht Hv]. specialize (IHn Hv).
    destruct target as [|c rest]; [done|]. simpl.
    eapply succeeds_bind; [reflexivity|].
    destruct (isupper c); repeat run_step.
  - specialize (IHn Hne). repeat run_step.
  - destruct Hne as [Hc Hb]. specialize (IHn1 Hc). specialize (IHn2 Hb).
    run_step. rename ctx0 into c1, Hrun into H1.
    run_step. run_step.
    run_step. rename ctx0 into c3, Hrun into H3.
    pose proof (extends_length _ _ (compile_extends _ _ _ H3)) as Hlen.
    simpl in Hlen. rewrite length_app in Hlen. simpl in Hlen.
    run_step. run_step.
    match goal with |- succeeds (bind (patch_jump ?p) _) ?c =>
      destruct (patch_jump_lt p c) as (c5 & H5 & Hl5) end.
    { simpl. rewrite length_app. simpl. lia. }
    simpl in Hl5. rewrite length_app in Hl5. simpl in Hl5.
    eapply succeeds_bind; [exact H5|]. run_step. run_step.
    match goal with |- succeeds (patch_jump ?p) ?c =>
      destruct (patch_jump_lt p c) as (c8 & H8 & _) end.
    { simpl. rewrite length_app. simpl. lia. }
    by exists tt, c8.
  - destruct Hne as [Hc Hb]. specialize (IHn1 Hc). specialize (IHn2 Hb).
    run_step.
    run_step. rename ctx0 into c1, Hrun into H1.
    run_step. run_step.
    run_step. rename ctx0 into c3, Hrun into H3.
    pose proof (extends_length _ _ (compile_extends _ _ _ H3)) as Hlen.
    simpl in Hlen. rewrite length_app in Hlen. simpl in Hlen.
    run_step. run_step.
    match goal with |- succeeds (bind (patch_jump ?p) _) ?c =>
      destruct (patch_jump_lt p c) as (c5 & H5 & Hl5) end.
    { simpl. rewrite !length_app. simpl. lia. }
    eapply succeeds_bind; [exact H5|]. repeat run_step.
  - specialize (IHn Hne). repeat run_step.
    unfold in_new_context.
    assert (succeeds (compile n;;
                      emit consts.DISCARD_TOP [];;
                      k <- create_const w_nil;;
                      emit consts.LOAD_CONST [k];;
                      emit consts.RETURN [];;
                      create_bytecode) new_context) as (bc & inner & Hin)
      by repeat run_step.
    eapply succeeds_bind; [by rewrite Hin|]. repeat run_step.
  - specialize (IHn Hne).
    unfold in_new_context.
    assert (succeeds (for_each (fun name => create_local name;; ret tt) args;;
                      compile n;;
                      emit consts.RETURN [];;
                      create_bytecode) new_context) as (bc & inner & Hin).
    { destruct (for_each_create_local_succeeds args new_context)
        as ([] & c0 & H0).
      eapply succeeds_bind; [exact H0|]. repeat run_step. }
    eapply succeeds_bind; [by rewrite Hin|]. repeat run_step.
  - specialize (IHn Hne). repeat run_step.
  - destruct Hne as [Hl Hr]. specialize (IHn1 Hl). specialize (IHn2 Hr).
    unfold Send_compile. run_step.
    destruct (succeeds_unit _ _ (IHn2 ctx0)) as [c2 H2].
    eapply succeeds_bind;
      [ rewrite (bind_Ok_intro (ret tt) _ ctx0 tt ctx0 eq_refl); exact H2 |].
    repeat run_step.
  - destruct Hne as [Hr Ha]. specialize (IHn Hr).
    unfold Send_compile. run_step.
    apply names_nonempty_all in Ha.
    match goal with |- succeeds (bind (for_each_reversed compile args) _) ?c =>
      destruct (for_each_reversed_succeeds args) with (ctx := c)
        as ([] & c2 & H2) end.
    { exact (Forall_mp _ _ _ H Ha). }
    eapply succeeds_bind; [exact H2|]. repeat run_step.
  - unfold Self_compile. run_step.
  - destruct (named_consts name) as [w|]; [repeat run_step|].
    destruct (String.eqb name "self"); [run_step|].
    unfold local_defined. eapply succeeds_bind; [reflexivity|].
    destruct (bool_decide _); [repeat run_step|].
    destruct name as [|c rest]; [done|]. simpl.
    eapply succeeds_bind; [reflexivity|].
    destruct (isupper c); [repeat run_step|].
    unfold Send_compile, Self_compile. repeat run_step.
  - repeat run_step.
  - apply names_nonempty_all in Hne.
    match goal with |- succeeds (bind (for_each compile items) _) ?c =>
      destruct (for_each_succeeds items) with (ctx := c)
        as ([] & c2 & H2) end.
    { exact (Forall_mp _ _ _ H Hne). }
    eapply succeeds_bind; [exact H2|]. repeat run_step.
  - repeat run_step.
  - repeat run_step.
Qed.

(** C8.  [compile] reads the first character of a [Variable] name that is
    neither a named singleton, nor [self], nor a defined local, and of every
    [Assignment] target: on the empty string this is an index error.  When
    these names are non-empty throughout the tree, the pass runs to
    completion, whatever the context it starts in. *)
Theorem compile_total_on_nonempty_names :
  (forall ctx,
     ctx_locals ctx !! "" = None ->
     compile (Variable_ "") ctx = Raise IndexError) /\
  (forall value ctx, compile (Assignment "" value) ctx = Raise IndexError) /\
  (forall n,
     names_nonempty n ->
     forall ctx, exists ctx', compile n ctx = Ok (tt, ctx')).
Proof.
  split_and!.
  - intros ctx Hl. simpl. unfold bind, local_defined.
    rewrite bool_decide_false; [done|]. rewrite Hl. by intros [? ?].
  - reflexivity.
  - intros n Hn ctx. apply succeeds_unit. by apply compile_succeeds.
Qed.

Lemma compile_total_on_nonempty_names_witness :
  compile (Variable_ "") new_context = Raise IndexError /\
  exists ctx',
    compile (Main (Block [Statement (Assignment "x" (ConstantInt 1)) false;
                          Statement (If (Variable_ "x") (Variable_ "y")) true]))
      new_context = Ok (tt, ctx').
Proof.
  destruct compile_total_on_nonempty_names as (H1 & _ & H3).
  split.
  - apply H1. reflexivity.
  - apply H3. simpl. repeat split; discriminate.
Defined.

(** ** [Function]: parameters take the first slots *)

(** The parameter at index [i] of the list has slot [i]. *)
Definition parameters_in_declaration_order
    (args : list string) (slots : gmap string nat) : Prop :=
  forall i p, args !! i = Some p -> slots !! p = Some i.

(** Declaring the names [args], none of which is bound in [ctx]. *)
Lemma declare_parameters args ctx ctx' :
  NoDup args ->
  (forall p, p ∈ args -> ctx_locals ctx !! p = None) ->
  for_each (fun name => create_local name ;; ret tt) args ctx = Ok (tt, ctx') ->
  (forall i p, args !! i = Some p ->
               ctx_locals ctx' !! p = Some (size (ctx_locals ctx) + i)) /\
  (forall x, x ∉ args -> ctx_locals ctx' !! x = ctx_locals ctx !! x) /\
  size (ctx_locals ctx') = size (ctx_locals ctx) + length args.
Proof.
  intros Hnd. revert ctx.
  induction Hnd as [|a args Ha Hnd IH]; intros ctx Hfresh H; simpl in H.
  - apply ret_Ok in H as [_ ->]. split_and!; [done | done | simpl; lia].
  - inv_bind H. inv_bind E. apply ret_Ok in E as [_ ->].
    assert (ctx_locals ctx !! a = None) as Hna
      by (apply Hfresh, list_elem_of_here).
    apply create_local_Ok in E0
      as (_ & _ & _ & _ & [[Hsome _] | (_ & -> & Hl)]); [congruence|].
    assert (forall x, x ∈ args -> x <> a) as Hneq by (by intros x Hx ->).
    destruct (IH ctx1) as (Hslots & Hother & Hsize); [|done|].
    { intros p Hp. rewrite Hl, lookup_insert_ne by (symmetry; auto).
      by apply Hfresh, list_elem_of_further. }
    rewrite Hl, map_size_insert_None in Hslots, Hsize by done.
    split_and!.
    + intros [|i] p Hp; simpl in Hp.
      * injection Hp as <-. rewrite Hother, Hl by done.
        rewrite lookup_insert_eq. f_equal. lia.
      * rewrite (Hslots _ _ Hp). f_equal. lia.
    + intros x Hx. apply not_elem_of_cons in Hx as [Hxa Hx].
      rewrite Hother, Hl by done.
      by rewrite lookup_insert_ne.
    + simpl. lia.
Qed.

(** C5 (amended).  For pairwise distinct parameter names, [Function.compile]
    works in a fresh unit, where it binds the parameters to the slots
    [0 .. N-1] in declaration order before the body is compiled; the body
    keeps these slots and binds every other name at a slot [>= N]; the unit
    ends with [RETURN] whatever the body.  The enclosing unit gets
    [LOAD_SELF], a load of the method-name symbol, a load of the code
    object, and [DEFINE_FUNCTION]. *)
Theorem Function_compile_parameters name args body ctx ctx' :
  NoDup args ->
  compile (Function name args body) ctx = Ok (tt, ctx') ->
  exists fctx0 fctx1 sym k,
    for_each (fun name => create_local name ;; ret tt) args new_context
      = Ok (tt, fctx0) /\
    ctx_data fctx0 = [] /\
    parameters_in_declaration_order args (ctx_locals fctx0) /\
    compile body fctx0 = Ok (tt, fctx1) /\
    parameters_in_declaration_order args (ctx_locals fctx1) /\
    (forall x slot,
       ctx_locals fctx1 !! x = Some slot -> x ∉ args -> length args <= slot) /\
    ctx_data ctx' =
      ctx_data ctx ++
      [MkInstr consts.LOAD_SELF []; MkInstr consts.LOAD_CONST [sym];
       MkInstr consts.LOAD_CONST [k]; MkInstr consts.DEFINE_FUNCTION []] /\
    ctx_symbols ctx' !! sym = Some name /\
    ctx_consts ctx' !! k =
      Some (W_Code (ctx_data fctx1 ++ [MkInstr consts.RETURN []])
              (ctx_consts fctx1) (ctx_symbols fctx1) (ctx_locals fctx1)).
Proof.
  intros Hnd H. simpl in H.
  inv_bind H. rename E into Hin, a into bytecode.
  apply in_new_context_Ok in Hin as (-> & inner & Hin).
  inv_bind Hin. rename ctx0 into fctx0, E into Hargs.
  inv_bind Hin. rename ctx0 into fctx1, E into Hbody.
  inv_bind Hin. rename ctx0 into fctx2, E into Hret.
  unfold create_bytecode in Hin. injection Hin as <- <-.
  apply emit_Ok in Hret as (Hd2 & Hk2 & Hs2 & Hl2).
  inv_bind H. rename ctx0 into c1, E into H1.
  inv_bind H. rename ctx0 into c2, a into sym, E into H2.
  inv_bind H. rename ctx0 into c3, E into H3.
  inv_bind H. rename ctx0 into c4, a into k, E into H4.
  inv_bind H. rename ctx0 into c5, E into H5.
  apply emit_Ok in H1 as (Hd1 & _).
  apply create_symbol_const_Ok in H2 as (Hsym & _ & Hd & _).
  rewrite Hd1 in Hd. clear Hd1.
  apply emit_Ok in H3 as (Hd3 & _ & Hs3 & _). rewrite Hd in Hd3. clear Hd.
  apply create_const_Ok in H4 as (-> & Hd4 & Hk4 & Hs4 & _).
  rewrite Hd3 in Hd4. clear Hd3.
  apply emit_Ok in H5 as (Hd5 & Hk5 & Hs5 & _). rewrite Hd4 in Hd5. clear Hd4.
  apply emit_Ok in H as (Hd6 & Hk6 & Hs6 & _). rewrite Hd5 in Hd6. clear Hd5.
  destruct (declare_parameters args new_context fctx0 Hnd)
    as (Hslots & Hother & Hsize); [done | exact Hargs |].
  simpl in Hslots, Hother, Hsize. rewrite map_size_empty in Hsize.
  destruct (for_each_create_local_data _ _ _ Hargs) as (Hd0 & _).
  pose proof (compile_extends _ _ _ Hbody) as [_ _ _ Hsub Hnew].
  exists fctx0, fctx1, sym, (length (ctx_consts c3)). split_and!; try done.
  - intros i p Hp. eapply lookup_weaken; [|exact Hsub]. by apply Hslots.
  - intros x slot Hx Hnot. rewrite <- (Nat.add_0_l (length args)), <- Hsize.
    apply (Hnew x slot Hx). rewrite Hother by done. apply lookup_empty.
  - rewrite Hd6, <- !app_assoc. done.
  - by rewrite Hs6, Hs5, Hs4, Hs3.
  - rewrite Hk6, Hk5, Hk4, list_lookup_middle by done.
    unfold space.newcode. simpl. by rewrite Hd2, Hk2, Hs2, Hl2.
Qed.

Lemma Function_compile_parameters_witness :
  NoDup ["a"; "b"] /\
  exists ctx' fctx1,
    compile (Function "add" ["a"; "b"]
               (Block [Statement
                         (Assignment "c" (BinOp "+" (Variable_ "a") (Variable_ "b")))
                         true])) new_context = Ok (tt, ctx') /\
    parameters_in_declaration_order ["a"; "b"] (ctx_locals fctx1) /\
    (forall x slot,
       ctx_locals fctx1 !! x = Some slot -> x ∉ ["a"; "b"] -> 2 <= slot) /\
    exists k,
      ctx_consts ctx' !! k =
        Some (W_Code (ctx_data fctx1 ++ [MkInstr consts.RETURN []])
                (ctx_consts fctx1) (ctx_symbols fctx1) (ctx_locals fctx1)).
Proof.
  assert (NoDup ["a"; "b"]) as Hnd
    by (apply (bool_decide_unpack _); vm_compute; exact I).
  split; [exact Hnd|].
  assert (exists ctx',
            compile (Function "add" ["a"; "b"]
               (Block [Statement
                         (Assignment "c" (BinOp "+" (Variable_ "a") (Variable_ "b")))
                         true])) new_context = Ok (tt, ctx')) as [ctx' Hc]
    by (eexists; vm_compute; reflexivity).
  destruct (Function_compile_parameters _ _ _ _ _ Hnd Hc)
    as (fctx0 & fctx1 & sym & k & _ & _ & _ & _ & Hp & Hs & _ & _ & Hk).
  exists ctx', fctx1. split_and!; [exact Hc | exact Hp | exact Hs |].
  exists k. exact Hk.
Defined.

(** C5 as stated, for any parameter list: the nested unit of a function whose
    code object is the first constant of the enclosing unit has its
    parameters in declaration order. *)
Definition Function_parameters_take_first_slots
    (name : string) (args : list string) (body : Node) : Prop :=
  forall ctx' code cpool spool slots,
    compile (Function name args body) new_context = Ok (tt, ctx') ->
    ctx_consts ctx' !! 0 = Some (W_Code code cpool spool slots) ->
    parameters_in_declaration_order args slots.

(** C5, counterexample.  A parameter name that occurs twice gets one slot:
    the second ["a"] is at slot 0, not 1. *)
Lemma Function_duplicate_parameter :
  ~ Function_parameters_take_first_slots "f" ["a"; "a"]
      (Block [Statement (Variable_ "a") true]).
Proof.
  intros H.
  assert (exists ctx' code cpool spool slots,
            compile (Function "f" ["a"; "a"]
                       (Block [Statement (Variable_ "a") true])) new_context
              = Ok (tt, ctx') /\
            ctx_consts ctx' !! 0 = Some (W_Code code cpool spool slots) /\
            slots !! "a" = Some 0)
    as (ctx' & code & cpool & spool & slots & Hc & Hk & Ha).
  { eexists _, _, _, _, _. split_and!; vm_compute; reflexivity. }
  specialize (H _ _ _ _ _ Hc Hk 1 "a" eq_refl).
  rewrite Ha in H. discriminate.
Qed.

(** ** [Node.__eq__] *)

(** [type(self)] *)
Inductive NodeClass : Set :=
| cMain | cBlock | cStatement | cAssignment | cInstanceVariableAssignment
| cIf | cWhile | cClass | cFunction | cReturn | cBinOp | cSend | cSelf
| cVariable | cInstanceVariable | cArray | cConstantInt | cConstantString.

#[global] Instance NodeClass_eq_dec : EqDecision NodeClass.
Proof. solve_decision. Defined.

Definition type_ (n : Node) : NodeClass :=
  match n with
  | Main _ => cMain
  | Block _ => cBlock
  | Statement _ _ => cStatement
  | Assignment _ _ => cAssignment
  | InstanceVariableAssignment _ _ => cInstanceVariableAssignment
  | If _ _ => cIf
  | While _ _ => cWhile
  | Class _ _ _ => cClass
  | Function _ _ _ => cFunction
  | Return _ => cReturn
  | BinOp _ _ _ => cBinOp
  | Send _ _ _ => cSend
  | Self => cSelf
  | Variable_ _ => cVariable
  | InstanceVariable _ => cInstanceVariable
  | Array _ => cArray
  | ConstantInt _ => cConstantInt
  | ConstantString _ => cConstantString
  end.

(** The values of the attributes the constructors set. *)
Inductive Field : Type :=
| FNode (n : Node)
| FNodes (l : list Node)
| FNone
| FStr (s : string)
| FStrs (l : list string)
| FInt (z : Z)
| FBool (b : bool).

(** [self.__dict__], in the order the constructor assigns the attributes. *)
Definition dict_ (n : Node) : list (string * Field) :=
  match n with
  | Main block => [("block", FNode block)]
  | Block stmts => [("stmts", FNodes stmts)]
  | Statement expr dont_pop => [("expr", FNode expr); ("dont_pop", FBool dont_pop)]
  | Assignment target value => [("target", FStr target); ("value", FNode value)]
  | InstanceVariableAssignment name value =>
      [("name", FStr name); ("value", FNode value)]
  | If cond body => [("cond", FNode cond); ("body", FNode body)]
  | While cond body => [("cond", FNode cond); ("body", FNode body)]
  | Class name superclass body =>
      [("name", FStr name);
       ("superclass", from_option FNode FNone superclass);
       ("body", FNode body)]
  | Function name args body =>
      [("name", FStr name); ("args", FStrs args); ("body", FNode body)]
  | Return expr => [("expr", FNode expr)]
  | BinOp op lhs rhs => [("op", FStr op); ("left", FNode lhs); ("right", FNode rhs)]
  | Send receiver method args =>
      [("receiver", FNode receiver); ("method", FStr method); ("args", FNodes args)]
  | Self => []
  | Variable_ name => [("name", FStr name)]
  | InstanceVariable name => [("name", FStr name)]
  | Array items => [("items", FNodes items)]
  | ConstantInt intvalue => [("intvalue", FInt intvalue)]
  | ConstantString strvalue => [("strvalue", FStr strvalue)]
  end.

(** [l1 == l2] on lists, elements compared with [eqb]. *)
Definition list_eqb {A} (eqb : A -> A -> bool) : list A -> list A -> bool :=
  fix go (l1 l2 : list A) : bool :=
    match l1, l2 with
    | [], [] => true
    | x :: r1, y :: r2 => eqb x y && go r1 r2
    | _, _ => false
    end.

(** [x == y] on two nodes: what [Node.__eq__] answers, attribute values
    that are nodes or lists of nodes being compared in the same way. *)
Fixpoint node_eqb (x y : Node) : bool :=
  match x, y with
  | Main b1, Main b2 => node_eqb b1 b2
  | Block s1, Block s2 => list_eqb node_eqb s1 s2
  | Statement e1 d1, Statement e2 d2 => node_eqb e1 e2 && Bool.eqb d1 d2
  | Assignment t1 v1, Assignment t2 v2 => String.eqb t1 t2 && node_eqb v1 v2
  | InstanceVariableAssignment n1 v1, InstanceVariableAssignment n2 v2 =>
      String.eqb n1 n2 && node_eqb v1 v2
  | If c1 b1, If c2 b2 => node_eqb c1 c2 && node_eqb b1 b2
  | While c1 b1, While c2 b2 => node_eqb c1 c2 && node_eqb b1 b2
  | Class n1 s1 b1, Class n2 s2 b2 =>
      String.eqb n1 n2 &&
      match s1, s2 with
      | Some a, Some b => node_eqb a b
      | None, None => true
      | _, _ => false
      end &&
      node_eqb b1 b2
  | Function n1 a1 b1, Function n2 a2 b2 =>
      String.eqb n1 n2 && list_eqb String.eqb a1 a2 && node_eqb b1 b2
  | Return e1, Return e2 => node_eqb e1 e2
  | BinOp o1 l1 r1, BinOp o2 l2 r2 =>
      String.eqb o1 o2 && node_eqb l1 l2 && node_eqb r1 r2
  | Send r1 m1 a1, Send r2 m2 a2 =>
      node_eqb r1 r2 && String.eqb m1 m2 && list_eqb node_eqb a1 a2
  | Self, Self => true
  | Variable_ n1, Variable_ n2 => String.eqb n1 n2
  | InstanceVariable n1, InstanceVariable n2 => String.eqb n1 n2
  | Array i1, Array i2 => list_eqb node_eqb i1 i2
  | ConstantInt z1, ConstantInt z2 => Z.eqb z1 z2
  | ConstantString s1, ConstantString s2 => String.eqb s1 s2
  | _, _ => false
  end.

(** [v1 == v2] on attribute values. *)
Definition field_eqb (v1 v2 : Field) : bool :=
  match v1, v2 with
  | FNode a, FNode b => node_eqb a b
  | FNodes a, FNodes b => list_eqb node_eqb a b
  | FNone, FNone => true
  | FStr a, FStr b => String.eqb a b
  | FStrs a, FStrs b => list_eqb String.eqb a b
  | FInt a, FInt b => Z.eqb a b
  | FBool a, FBool b => Bool.eqb a b
  | _, _ => false
  end.

Fixpoint dict_get (k : string) (d : list (string * Field)) : option Field :=
  match d with
  | [] => None
  | (k', v) :: rest => if String.eqb k k' then Some v else dict_get k rest
  end.

(** [d1 == d2] on dictionaries: as many keys, and each key of [d1] is a key of
    [d2] with an equal value. *)
Definition dict_eqb (d1 d2 : list (string * Field)) : bool :=
  (length d1 =? length d2)%nat &&
  forallb (fun kv => match dict_get kv.1 d2 with
                     | Some v' => field_eqb kv.2 v'
                     | None => false
                     end) d1.

(** Any Python value a node can be compared with. *)
#[warnings="-register-all"]
Inductive PyObject : Type :=
| PyNode (n : Node)
| PyNone
| PyInt (z : Z)
| PyStr (s : string)
| PyBool (b : bool)
| PyList (l : list PyObject).

Inductive EqResult : Set :=
| NotImplemented
| Answer (b : bool).

(** [Node.__eq__(self, other)] *)
Definition Node_eq (self : Node) (other : PyObject) : EqResult :=
  match other with
  | PyNode other =>
      Answer (bool_decide (type_ self = type_ other) &&
              dict_eqb (dict_ self) (dict_ other))
  | _ => NotImplemented
  end.

Lemma list_eqb_eq {A} (eqb : A -> A -> bool) (l1 : list A) :
  Forall (fun x => forall y, eqb x y = true <-> x = y) l1 ->
  forall l2, list_eqb eqb l1 l2 = true <-> l1 = l2.
Proof.
  induction 1 as [|x r1 Hx _ IH]; intros [|y r2]; simpl; try done.
  rewrite andb_true_iff, Hx, IH. split; [by intros [-> ->] | by intros [= -> ->]].
Qed.

Lemma list_eqb_string_eq (l1 l2 : list string) :
  list_eqb String.eqb l1 l2 = true <-> l1 = l2.
Proof.
  apply list_eqb_eq. apply Forall_forall. intros x _ y. apply String.eqb_eq.
Qed.

(** [node_eqb] decides structural equality of trees. *)
Lemma node_eqb_eq (x : Node) : forall y, node_eqb x y = true <-> x = y.
Proof.
  induction x using Node_ind'; intros y; destruct y; simpl; try done;
    rewrite ?andb_true_iff, ?String.eqb_eq, ?Z.eqb_eq, ?Bool.eqb_true_iff,
            ?list_eqb_string_eq;
    repeat match goal with
           | IH : forall y, node_eqb ?a y = true <-> ?a = y |- _ =>
               rewrite IH; clear IH
           | IH : Forall _ ?l |- _ =>
               rewrite (list_eqb_eq node_eqb l IH); clear IH
           end;
    try (split; [intros; destruct_and?; by subst | by intros [= -> ->]]);
    try (split; [intros; destruct_and?; by subst | by intros [= -> -> ->]]);
    try (split; [intros; destruct_and?; by subst | by intros [= ->]]).
  (* Class: the optional superclass *)
  destruct superclass as [s|], superclass0 as [s0|]; simpl in H |- *;
    rewrite ?H; split; try (intros; destruct_and?; by subst);
    try (by intros [= -> -> ->]); try (by intros [= -> ->]).
Qed.

(** The comparison of the attribute dictionaries of two nodes of the same
    class is the attribute-wise comparison [node_eqb] performs: [node_eqb] is
    the answer of [Node.__eq__] on two nodes. *)
Lemma Node_eq_node_eqb (x y : Node) :
  Node_eq x (PyNode y) = Answer (node_eqb x y).
Proof.
  destruct x, y; try reflexivity; unfold Node_eq; f_equal;
    unfold dict_eqb; simpl;
    repeat match goal with
           | |- context [from_option _ _ ?o] => destruct o; simpl
           end;
    rewrite ?andb_true_r, ?andb_false_r, ?andb_assoc; reflexivity.
Qed.

Lemma type_dict_inj (x y : Node) :
  type_ x = type_ y -> dict_ x = dict_ y -> x = y.
Proof.
  destruct x, y; simpl; try discriminate; intros _ Hd; simplify_eq; try done.
  destruct superclass as [s|], superclass0 as [s0|]; simplify_eq; done.
Qed.

(** C9.  [x.__eq__(y)] answers true exactly when [y] is a node of the same
    class as [x] with the same attribute values, that is when the two trees
    are equal; it answers [NotImplemented], not false, when [y] is not a
    node; on nodes it is reflexive and symmetric. *)
Theorem Node_eq_structural :
  (forall x o,
     Node_eq x o = Answer true <->
     exists y, o = PyNode y /\ type_ x = type_ y /\ dict_ x = dict_ y) /\
  (forall x y, Node_eq x (PyNode y) = Answer true <-> x = y) /\
  (forall x o, (forall y, o <> PyNode y) -> Node_eq x o = NotImplemented) /\
  (forall x, Node_eq x (PyNode x) = Answer true) /\
  (forall x y, Node_eq x (PyNode y) = Node_eq y (PyNode x)).
Proof.
  assert (forall x y, Node_eq x (PyNode y) = Answer true <-> x = y) as Heq.
  { intros x y. rewrite Node_eq_node_eqb, <- node_eqb_eq.
    split; [by intros [= ->] | by intros ->]. }
  split_and!.
  - intros x o. split.
    + destruct o as [y| | | | |]; try discriminate.
      intros ->%Heq. eauto.
    + intros (y & -> & Ht & Hd). apply Heq. by apply type_dict_inj.
  - exact Heq.
  - intros x o Ho. destruct o; try reflexivity. by destruct (Ho n).
  - intros x. by apply Heq.
  - intros x y. rewrite !Node_eq_node_eqb. f_equal.
    apply eq_true_iff_eq. rewrite !node_eqb_eq. split; by intros ->.
Qed.

Lemma Node_eq_structural_witness :
  Node_eq (Statement (ConstantInt 1) false) PyNone = NotImplemented /\
  Node_eq (Statement (ConstantInt 1) false)
          (PyNode (Statement (ConstantInt 1) false)) = Answer true /\
  Node_eq (Statement (ConstantInt 1) false)
          (PyNode (Statement (ConstantInt 1) true)) = Answer false.
Proof.
  destruct Node_eq_structural as (_ & _ & Hni & Hrefl & _).
  split_and!.
  - apply Hni. discriminate.
  - apply Hrefl.
  - reflexivity.
Defined.

(** ** Construction of blocks: the object store *)

(** [Block.__init__] writes into an object it is handed; objects therefore
    have an identity here.  The store is the sequence of the objects
    allocated so far, and a reference is an index into it. *)
Abbreviation loc := nat (only parsing).

Inductive Val : Type :=
| VRef (l : loc)
| VNone
| VBool (b : bool)
| VStr (s : string)
| VInt (z : Z).

Inductive Obj : Type :=
| OList (items : list loc)
| OInstance (cls : NodeClass) (attrs : gmap string Val).

Abbreviation Store := (list Obj) (only parsing).

(** Store-threading computations; [None] is an uncaught exception. *)
Definition S_ (A : Type) : Type := Store -> option (A * Store).

Definition sret {A} (a : A) : S_ A := fun h => Some (a, h).
Definition sbind {A B} (m : S_ A) (k : A -> S_ B) : S_ B :=
  fun h => match m h with
           | Some (a, h') => k a h'
           | None => None
           end.

Declare Scope store_scope.
Delimit Scope store_scope with store.
Notation "x <- m ;; k" := (sbind m (fun x => k))
  (at level 100, m at next level, right associativity) : store_scope.
Notation "m ;; k" := (sbind m (fun _ => k))
  (at level 100, right associativity) : store_scope.

Definition alloc (o : Obj) : S_ loc :=
  fun h => Some (length h, h ++ [o]).

Definition get_list (l : loc) : S_ (list loc) :=
  fun h => match h !! l with
           | Some (OList items) => Some (items, h)
           | _ => None
           end.

(** [obj.k = v] *)
Definition setattr (l : loc) (k : string) (v : Val) : S_ unit :=
  fun h => match h !! l with
           | Some (OInstance cls attrs) =>
               Some (tt, <[l := OInstance cls (<[k := v]> attrs)]> h)
           | _ => None
           end.

(** [xs[-1]] *)
Definition last_item (items : list loc) : S_ loc :=
  fun h => match last items with
           | Some l => Some (l, h)
           | None => None
           end.

(** [Variable(name)] *)
Definition new_Variable (name : string) : S_ loc :=
  alloc (OInstance cVariable {[ "name" := VStr name ]}).

(** [Statement(expr)]: [self.expr = expr; self.dont_pop = False] *)
Definition new_Statement (expr : loc) : S_ loc :=
  (self <- alloc (OInstance cStatement ∅) ;;
   setattr self "expr" (VRef expr) ;;
   setattr self "dont_pop" (VBool false) ;;
   sret self)%store.

(** [Block(stmts)] *)
Definition new_Block (stmts : loc) : S_ loc :=
  (self <- alloc (OInstance cBlock ∅) ;;
   items <- get_list stmts ;;
   stmts <- (if bool_decide (items = []) then
               v <- new_Variable "nil" ;;
               s <- new_Statement v ;;
               alloc (OList [s])
             else sret stmts) ;;
   items <- get_list stmts ;;
   final <- last_item items ;;
   setattr final "dont_pop" (VBool true) ;;
   setattr self "stmts" (VRef stmts) ;;
   sret self)%store.

(** [obj.k] *)
Definition getattr (h : Store) (l : loc) (k : string) : option Val :=
  match h !! l with
  | Some (OInstance _ attrs) => attrs !! k
  | _ => None
  end.

Lemma sbind_Some {A B} (m : S_ A) (k : A -> S_ B) h r :
  sbind m k h = Some r ->
  exists a h1, m h = Some (a, h1) /\ k a h1 = Some r.
Proof. unfold sbind. destruct (m h) as [[a h1]|]; [eauto | discriminate]. Qed.

Ltac inv_sbind H :=
  let a := fresh "a" in
  let h := fresh "h" in
  let E := fresh "E" in
  apply sbind_Some in H; destruct H as (a & h & E & H);
  match type of a with unit => destruct a | _ => idtac end.

Lemma alloc_Some o h l h' :
  alloc o h = Some (l, h') -> l = length h /\ h' = h ++ [o].
Proof. unfold alloc. by intros [= <- <-]. Qed.

Lemma get_list_Some l h items h' :
  get_list l h = Some (items, h') -> h' = h /\ h !! l = Some (OList items).
Proof.
  unfold get_list. destruct (h !! l) as [[its|]|]; try discriminate.
  by intros [= <- <-].
Qed.

Lemma setattr_Some l k v h u h' :
  setattr l k v h = Some (u, h') ->
  exists cls attrs,
    h !! l = Some (OInstance cls attrs) /\
    h' = <[l := OInstance cls (<[k := v]> attrs)]> h.
Proof.
  unfold setattr. destruct (h !! l) as [[its|cls attrs]|]; try discriminate.
  intros [= _ <-]. eauto.
Qed.

Lemma last_item_Some items h l h' :
  last_item items h = Some (l, h') -> h' = h /\ last items = Some l.
Proof.
  unfold last_item. destruct (last items); [|done]. by intros [= <- <-].
Qed.

Lemma sret_Some {A} (a : A) h a' h' :
  sret a h = Some (a', h') -> a' = a /\ h' = h.
Proof. unfold sret. by intros [= <- <-]. Qed.

(** A store without dangling references from its lists. *)
Definition closed (h : Store) : Prop :=
  forall l items, h !! l = Some (OList items) ->
                  Forall (fun i => i < length h) items.

Definition class_of (h : Store) (l : loc) : option NodeClass :=
  match h !! l with
  | Some (OInstance cls _) => Some cls
  | _ => None
  end.

(** What [obj.k = v] changes: that attribute of that object. *)
Lemma setattr_frame l k v h u h' :
  setattr l k v h = Some (u, h') ->
  length h' = length h /\
  getattr h' l k = Some v /\
  (forall l' k', l' <> l \/ k' <> k -> getattr h' l' k' = getattr h l' k') /\
  (forall l', class_of h' l' = class_of h l') /\
  (forall l', l' <> l -> h' !! l' = h !! l').
Proof.
  intros (cls & attrs & Hl & ->)%setattr_Some.
  pose proof (lookup_lt_Some _ _ _ Hl) as Hlt.
  split_and!.
  - by rewrite length_insert.
  - unfold getattr. rewrite list_lookup_insert_eq by done.
    by rewrite lookup_insert_eq.
  - intros l' k' Hne. unfold getattr. destruct (decide (l' = l)) as [->|Hl'].
    + destruct Hne as [|Hk']; [done|].
      rewrite list_lookup_insert_eq, Hl by done. by rewrite lookup_insert_ne.
    + by rewrite list_lookup_insert_ne.
  - intros l'. unfold class_of. destruct (decide (l' = l)) as [->|Hl'].
    + by rewrite list_lookup_insert_eq, Hl.
    + by rewrite list_lookup_insert_ne.
  - intros l' Hl'. by rewrite list_lookup_insert_ne.
Qed.

Lemma alloc_frame o h l h' :
  alloc o h = Some (l, h') ->
  l = length h /\ length h' = S (length h) /\ h' !! l = Some o /\
  (forall l', l' <> l -> h' !! l' = h !! l') /\
  (forall l' k, l' <> l -> getattr h' l' k = getattr h l' k) /\
  (forall l', l' <> l -> class_of h' l' = class_of h l').
Proof.
  intros [-> ->]%alloc_Some.
  assert (forall l', l' <> length h -> (h ++ [o]) !! l' = h !! l') as Hf.
  { intros l' Hl'. destruct (decide (l' < length h)).
    + by rewrite lookup_app_l.
    + rewrite !lookup_ge_None_2; [done | lia |].
      rewrite length_app. simpl. lia. }
  split_and!; [done | | | done | |].
  - rewrite length_app. simpl. lia.
  - by rewrite list_lookup_middle.
  - intros l' k Hl'. unfold getattr. by rewrite Hf.
  - intros l' Hl'. unfold class_of. by rewrite Hf.
Qed.

(** C10 (amended).  [Block(stmts)] never changes the list object it is
    given.  If that list is non-empty, the block keeps a reference to it and
    sets [dont_pop = True] on its last element, in the store, so for every
    holder of that element; no other attribute of that element and no other
    object that existed is changed.  If the list is empty, nothing that
    existed is changed, the caller's list stays empty, and the block refers
    to a new list holding one new statement with [dont_pop = True], the
    expression of which is a new [Variable("nil")]. *)
Theorem Block_init_frame h stmts items self h' :
  closed h ->
  h !! stmts = Some (OList items) ->
  new_Block stmts h = Some (self, h') ->
  h' !! stmts = Some (OList items) /\
  class_of h' self = Some cBlock /\
  h !! self = None /\
  match last items with
  | Some final =>
      getattr h' self "stmts" = Some (VRef stmts) /\
      getattr h' final "dont_pop" = Some (VBool true) /\
      (forall k, k <> "dont_pop" -> getattr h' final k = getattr h final k) /\
      (forall l, l <> final -> l < length h -> h' !! l = h !! l)
  | None =>
      (forall l, l < length h -> h' !! l = h !! l) /\
      exists lst s v,
        getattr h' self "stmts" = Some (VRef lst) /\
        h !! lst = None /\ h !! s = None /\ h !! v = None /\
        h' !! lst = Some (OList [s]) /\
        class_of h' s = Some cStatement /\
        getattr h' s "expr" = Some (VRef v) /\
        getattr h' s "dont_pop" = Some (VBool true) /\
        h' !! v = Some (OInstance cVariable {[ "name" := VStr "nil" ]})
  end.
Proof.
  intros Hclosed Hstmts H. unfold new_Block in H.
  pose proof (lookup_lt_Some _ _ _ Hstmts) as Hlt.
  inv_sbind H. rename a into self0, h0 into h1, E into Hself.
  apply alloc_frame in Hself as (-> & Hlen1 & Hs1 & Hf1 & Hg1 & Hc1).
  inv_sbind H. apply get_list_Some in E as [-> Hitems].
  rewrite Hf1, Hstmts in Hitems by lia. injection Hitems as <-.
  inv_sbind H. rename a into stmts', h0 into h2, E into Hnorm.
  inv_sbind H. apply get_list_Some in E as [-> Hitems'].
  rename a into items'.
  inv_sbind H. apply last_item_Some in E as [-> Hlast].
  rename a into final.
  inv_sbind H. rename h0 into h3, E into Hmark.
  inv_sbind H. rename h0 into h4, E into Hset.
  apply sret_Some in H as [-> ->].
  pose proof (setattr_Some _ _ _ _ _ _ Hmark) as (fcls & fattrs & Hfinal & _).
  apply setattr_frame in Hmark as (Hlen3 & Hm1 & Hm2 & Hmc & Hm3).
  apply setattr_frame in Hset as (Hlen4 & Hs41 & Hs42 & Hs4c & Hs43).
  assert (h !! length h = None) as Hfresh by (by apply lookup_ge_None_2).
  destruct (decide (items = [])) as [->|Hne].
  - (* the empty list *)
    rewrite bool_decide_true in Hnorm by done.
    inv_sbind Hnorm. rename a into v, h0 into h21, E into Hv.
    apply alloc_frame in Hv as (-> & Hlen21 & Hv1 & Hfv & Hgv & Hcv).
    inv_sbind Hnorm. rename a into s, h0 into h22, E into Hst.
    unfold new_Statement in Hst.
    inv_sbind Hst. rename h0 into h221, E into Hsa.
    apply alloc_frame in Hsa as (-> & Hlen221 & Hsa1 & Hfsa & Hgsa & Hcsa).
    inv_sbind Hst. rename h0 into h222, E into He.
    apply setattr_frame in He as (Hlen222 & He1 & He2 & Hec & He3).
    inv_sbind Hst. rename h0 into h223, E into Hd.
    apply setattr_frame in Hd as (Hlen223 & Hd1 & Hd2 & Hdc & Hd3).
    apply sret_Some in Hst as [-> ->].
    apply alloc_frame in Hnorm as (-> & Hlen2 & Hl1 & Hfl & Hgl & Hcl).
    rewrite Hl1 in Hitems'. injection Hitems' as <-.
    simpl in Hlast. injection Hlast as <-.
    assert (forall l, l < length h -> h4 !! l = h !! l) as Hold.
    { intros l Hl.
      rewrite Hs43, Hm3, Hfl, Hd3, He3, Hfsa, Hfv, Hf1 by lia. done. }
    simpl. split_and!; [by rewrite Hold | | done | exact Hold |].
    + rewrite Hs4c, Hmc, Hcl, Hdc, Hec, Hcsa, Hcv by lia.
      unfold class_of. by rewrite Hs1.
    + exists (length h223), (length h21), (length h1).
      split_and!; try (apply lookup_ge_None_2; lia).
      * done.
      * rewrite Hs43, Hm3 by lia. done.
      * rewrite Hs4c, Hmc, Hcl, Hdc, Hec by lia.
        unfold class_of. by rewrite Hsa1.
      * rewrite Hs42, Hm2, Hgl, Hd2 by (try lia; (left; lia) || (by right)).
        done.
      * rewrite Hs42 by (left; lia). done.
      * rewrite Hs43, Hm3, Hfl, Hd3, He3, Hfsa by lia. done.
  - (* a non-empty list: the caller's own *)
    rewrite bool_decide_false in Hnorm by done.
    apply sret_Some in Hnorm as [-> ->].
    rewrite Hf1, Hstmts in Hitems' by lia. injection Hitems' as <-.
    rewrite Hlast.
    assert (final < length h) as Hfl.
    { pose proof (Hclosed _ _ Hstmts) as Hall.
      rewrite Forall_forall in Hall. apply Hall.
      rewrite last_lookup in Hlast. by eapply list_elem_of_lookup_2. }
    assert (final <> stmts) as Hfs.
    { intros ->. rewrite Hf1, Hstmts in Hfinal by lia. done. }
    split_and!.
    + rewrite Hs43, Hm3, Hf1 by lia. done.
    + rewrite Hs4c, Hmc. unfold class_of. by rewrite Hs1.
    + done.
    + done.
    + rewrite Hs42 by (left; lia). done.
    + intros k Hk. rewrite Hs42, Hm2, Hg1 by (try lia; (left; lia) || (by right)).
      done.
    + intros l Hl Hlh. rewrite Hs43, Hm3, Hf1 by lia. done.
Qed.

(** The store after [x = Variable("x"); s = Statement(x); l = [s]]. *)
Definition one_statement_store : Store :=
  [OInstance cVariable {[ "name" := VStr "x" ]};
   OInstance cStatement (<["dont_pop" := VBool false]> {[ "expr" := VRef 0 ]});
   OList [1]].

Lemma one_statement_store_closed : closed one_statement_store.
Proof.
  intros [|[|[|l]]] items; simpl; try discriminate.
  intros [= <-]. repeat constructor.
Qed.

Lemma Block_init_frame_witness :
  exists self h',
    new_Block 2 one_statement_store = Some (self, h') /\
    h' !! 2 = Some (OList [1]) /\
    getattr h' self "stmts" = Some (VRef 2) /\
    getattr h' 1 "dont_pop" = Some (VBool true) /\
    getattr h' 1 "expr" = Some (VRef 0).
Proof.
  eexists _, _. split; [reflexivity|].
  destruct (Block_init_frame one_statement_store 2 [1] _ _
              one_statement_store_closed eq_refl eq_refl)
    as (Hl & _ & _ & Hs & Hd & Hk & _).
  split_and!; [exact Hl | exact Hs | exact Hd |].
  rewrite Hk by discriminate. reflexivity.
Defined.

(** C10 as stated: after [Block(stmts)], the last element of the list the
    caller supplied has [dont_pop = True]. *)
Definition Block_marks_last_of_argument (h : Store) (stmts : loc) : Prop :=
  forall self h',
    new_Block stmts h = Some (self, h') ->
    exists items final,
      h' !! stmts = Some (OList items) /\
      last items = Some final /\
      getattr h' final "dont_pop" = Some (VBool true).

(** C10, counterexample.  [l = []; Block(l)]: the list [l] is still empty
    afterwards, it has no last element; the statement that was marked is in
    a list of the block's own. *)
Lemma Block_of_empty_list_leaves_argument :
  ~ Block_marks_last_of_argument [OList []] 0.
Proof.
  intros H. destruct (H _ _ eq_refl) as (items & final & Hl & Hlast & _).
  simpl in Hl. injection Hl as <-. discriminate.
Qed.

(** A statement that ends one block and is reused inside another stays
    marked: [s = Statement(x); t = Statement(x); Block([s]); Block([s, t])]
    leaves both [s] and [t] with [dont_pop = True]. *)
Example shared_statement_stays_marked :
  exists b1 h1 b2 h2,
    new_Block 3
      [OInstance cVariable {[ "name" := VStr "x" ]};
       OInstance cStatement (<["dont_pop" := VBool false]> {[ "expr" := VRef 0 ]});
       OInstance cStatement (<["dont_pop" := VBool false]> {[ "expr" := VRef 0 ]});
       OList [1];
       OList [1; 2]] = Some (b1, h1) /\
    new_Block 4 h1 = Some (b2, h2) /\
    getattr h2 1 "dont_pop" = Some (VBool true) /\
    getattr h2 2 "dont_pop" = Some (VBool true).
Proof. eexists _, _, _, _. split_and!; reflexivity. Qed.

(** ** Running the code of [If] and [While] *)

(** Modelled from the spec: the part of the virtual machine that the claims
    about [If] and [While] need (the interpreter is a collaborator outside
    [ast.py]).  The machine runs the instruction sequence of one unit against
    its constant pool.  [LOAD_CONST k] pushes constant [k]; [DISCARD_TOP]
    pops; [JUMP t] continues at [t]; [JUMP_IF_FALSE t] pops the condition
    and continues at [t] when it is false, at the next instruction
    otherwise.  Runtime values, their truth, the rest of the machine state
    and the behaviour of every other instruction are left open. *)
Section machine.
Context {Value Env : Type}.
Variable wrap : W_Object -> Value.
Variable is_true : Value -> bool.

Record Frame : Type := MkFrame {
  pc : nat;
  stack : list Value;
  env : Env;
}.

Variable other_step : Instr -> Frame -> option Frame.

Definition step (code : list Instr) (cpool : list W_Object) (f : Frame)
  : option Frame :=
  match code !! pc f with
  | None => None
  | Some i =>
      match opcode i, operands i, stack f with
      | consts.LOAD_CONST, [k], s =>
          match cpool !! k with
          | Some w => Some (MkFrame (S (pc f)) (wrap w :: s) (env f))
          | None => None
          end
      | consts.DISCARD_TOP, [], _ :: s =>
          Some (MkFrame (S (pc f)) s (env f))
      | consts.JUMP, [t], s =>
          Some (MkFrame t s (env f))
      | consts.JUMP_IF_FALSE, [t], v :: s =>
          Some (MkFrame (if is_true v then S (pc f) else t) s (env f))
      | _, _, _ => other_step i f
      end
  end.

(** [runs code cpool f f']: the machine gets from [f] to [f'] in some number
    of steps. *)
Definition runs (code : list Instr) (cpool : list W_Object) : relation Frame :=
  rtc (fun f f' => step code cpool f = Some f').

Lemma runs_step code cpool f f' f'' :
  runs code cpool f f' -> step code cpool f' = Some f'' ->
  runs code cpool f f''.
Proof. intros H1 H2. eapply rtc_r; eauto. Qed.

Lemma step_LOAD_CONST code cpool p s e k w :
  code !! p = Some (MkInstr consts.LOAD_CONST [k]) ->
  cpool !! k = Some w ->
  step code cpool (MkFrame p s e) = Some (MkFrame (S p) (wrap w :: s) e).
Proof. intros Hc Hk. unfold step. simpl. rewrite Hc. simpl. by rewrite Hk. Qed.

Lemma step_DISCARD_TOP code cpool p v s e :
  code !! p = Some (MkInstr consts.DISCARD_TOP []) ->
  step code cpool (MkFrame p (v :: s) e) = Some (MkFrame (S p) s e).
Proof. intros Hc. unfold step. simpl. by rewrite Hc. Qed.

Lemma step_JUMP code cpool p s e t :
  code !! p = Some (MkInstr consts.JUMP [t]) ->
  step code cpool (MkFrame p s e) = Some (MkFrame t s e).
Proof. intros Hc. unfold step. simpl. by rewrite Hc. Qed.

Lemma step_JUMP_IF_FALSE code cpool p v s e t :
  code !! p = Some (MkInstr consts.JUMP_IF_FALSE [t]) ->
  step code cpool (MkFrame p (v :: s) e) =
    Some (MkFrame (if is_true v then S p else t) s e).
Proof. intros Hc. unfold step. simpl. by rewrite Hc. Qed.

(** C6.  [If.compile] emits the code of the condition, a [JUMP_IF_FALSE] to
    the position of a load of nil, the code of the body, a [JUMP] to the
    position after that load, and the load of nil, which ends the code.  So
    when the condition leaves a false value the machine reaches the end with
    nil pushed, and when it leaves a true value the machine reaches the end
    with the value of the body pushed: one more value than at entry either
    way. *)
Theorem If_compile_correct cond body ctx ctx' :
  compile (If cond body) ctx = Ok (tt, ctx') ->
  exists ctx1 ctx2 ctx3 code_c code_b k,
    let p0 := length (ctx_data ctx) in
    let p1 := p0 + length code_c in
    let else_label := p1 + 1 + length code_b + 1 in
    let end_label := else_label + 1 in
    compile cond ctx = Ok (tt, ctx1) /\
    ctx_data ctx1 = ctx_data ctx ++ code_c /\
    emit consts.JUMP_IF_FALSE [0] ctx1 = Ok (tt, ctx2) /\
    compile body ctx2 = Ok (tt, ctx3) /\
    ctx_data ctx3 = ctx_data ctx2 ++ code_b /\
    ctx_data ctx' =
      ctx_data ctx ++ code_c ++
      [MkInstr consts.JUMP_IF_FALSE [else_label]] ++ code_b ++
      [MkInstr consts.JUMP [end_label]; MkInstr consts.LOAD_CONST [k]] /\
    ctx_data ctx' !! else_label = Some (MkInstr consts.LOAD_CONST [k]) /\
    ctx_consts ctx' !! k = Some w_nil /\
    end_label = length (ctx_data ctx') /\
    forall s e v e1,
      runs (ctx_data ctx') (ctx_consts ctx')
           (MkFrame p0 s e) (MkFrame p1 (v :: s) e1) ->
      (is_true v = false ->
       runs (ctx_data ctx') (ctx_consts ctx')
            (MkFrame p0 s e) (MkFrame end_label (wrap w_nil :: s) e1)) /\
      (is_true v = true ->
       forall w e2,
         runs (ctx_data ctx') (ctx_consts ctx')
              (MkFrame (p1 + 1) s e1)
              (MkFrame (p1 + 1 + length code_b) (w :: s) e2) ->
         runs (ctx_data ctx') (ctx_consts ctx')
              (MkFrame p0 s e) (MkFrame end_label (w :: s) e2)).
Proof.
  intros H.
  apply If_compile_shape in H as
    (c1 & c2 & c3 & code_b & Hc & Hj & Hb & Hd3 & Hd & Hk & Hs & Hl);
    [|apply compile_extends].
  destruct (ext_data _ _ (compile_extends _ _ _ Hc)) as [code_c Hd1].
  pose proof (emit_Ok _ _ _ _ _ Hj) as (Hd2 & _).
  exists c1, c2, c3, code_c, code_b, (length (ctx_consts c3)).
  assert (ctx_data ctx' =
          ctx_data ctx ++ code_c ++
          [MkInstr consts.JUMP_IF_FALSE
             [length (ctx_data ctx) + length code_c + 1 + length code_b + 1]] ++
          code_b ++
          [MkInstr consts.JUMP
             [length (ctx_data ctx) + length code_c + 1 + length code_b + 1 + 1];
           MkInstr consts.LOAD_CONST [length (ctx_consts c3)]]) as Hcode.
  { rewrite Hd, Hd1, <- !app_assoc, length_app. simpl.
    replace (length (ctx_data ctx) + length code_c + length code_b + 2)
      with (length (ctx_data ctx) + length code_c + 1 + length code_b + 1)
      by lia.
    replace (length (ctx_data ctx) + length code_c + length code_b + 3)
      with (length (ctx_data ctx) + length code_c + 1 + length code_b + 1 + 1)
      by lia.
    done. }
  assert (ctx_data ctx' !!
            (length (ctx_data ctx) + length code_c + 1 + length code_b)
          = Some (MkInstr consts.JUMP
             [length (ctx_data ctx) + length code_c + 1 + length code_b + 1 + 1]))
    as Hjump.
  { rewrite Hcode, lookup_app_r, lookup_app_r by lia.
    rewrite lookup_app_r by (simpl; lia).
    rewrite lookup_app_r by (simpl; lia).
    simpl. replace (_ - _ - _ - _ - _) with 0 by lia. done. }
  assert (ctx_data ctx' !!
            (length (ctx_data ctx) + length code_c + 1 + length code_b + 1)
          = Some (MkInstr consts.LOAD_CONST [length (ctx_consts c3)]))
    as Hload.
  { rewrite Hcode, lookup_app_r, lookup_app_r by lia.
    rewrite lookup_app_r by (simpl; lia).
    rewrite lookup_app_r by (simpl; lia).
    simpl. replace (_ - _ - _ - _ - _) with 1 by lia. done. }
  assert (ctx_consts ctx' !! length (ctx_consts c3) = Some w_nil) as Hnil.
  { by rewrite Hk, list_lookup_middle. }
  assert (ctx_data ctx' !! (length (ctx_data ctx) + length code_c)
          = Some (MkInstr consts.JUMP_IF_FALSE
             [length (ctx_data ctx) + length code_c + 1 + length code_b + 1]))
    as Hjif'.
  { rewrite Hcode, lookup_app_r, lookup_app_r by lia.
    replace (_ - _ - _) with 0 by lia. done. }
  cbv zeta. split_and!.
  - exact Hc.
  - exact Hd1.
  - exact Hj.
  - exact Hb.
  - by rewrite Hd2, Hd3, <- app_assoc.
  - exact Hcode.
  - exact Hload.
  - exact Hnil.
  - rewrite Hcode, !length_app. simpl. lia.
  - intros s e v e1 Hcond. split.
    + intros Hv.
      eapply runs_step; [eapply runs_step; [exact Hcond|]|].
      * rewrite (step_JUMP_IF_FALSE _ _ _ _ _ _ _ Hjif'), Hv. reflexivity.
      * rewrite (step_LOAD_CONST _ _ _ _ _ _ _ Hload Hnil).
        do 2 f_equal. lia.
    + intros Hv w e2 Hbody.
      eapply runs_step; [etrans; [eapply runs_step; [exact Hcond|]|exact Hbody]|].
      * rewrite (step_JUMP_IF_FALSE _ _ _ _ _ _ _ Hjif'), Hv.
        do 2 f_equal. lia.
      * rewrite (step_JUMP _ _ _ _ _ _ Hjump). reflexivity.
Qed.

(** The loop of a [While] whose condition starts at [start], whose
    [JUMP_IF_FALSE] is at [test] and whose body ends before [body_end], run
    on the stack [s]: [iterates n e e'] when the condition is true [n] times
    and then false, each evaluation of the condition and of the body leaving
    one value on top of [s], the state going from [e] to [e']. *)
Inductive iterates (code : list Instr) (cpool : list W_Object)
    (start test body_end : nat) (s : list Value) : nat -> Env -> Env -> Prop :=
| iterates_done e e1 v :
    runs code cpool (MkFrame start s e) (MkFrame test (v :: s) e1) ->
    is_true v = false ->
    iterates code cpool start test body_end s 0 e e1
| iterates_again n e e1 e2 e3 v w :
    runs code cpool (MkFrame start s e) (MkFrame test (v :: s) e1) ->
    is_true v = true ->
    runs code cpool (MkFrame (S test) s e1) (MkFrame body_end (w :: s) e2) ->
    iterates code cpool start test body_end s n e2 e3 ->
    iterates code cpool start test body_end s (S n) e e3.

(** C7.  [While.compile] emits, from the start position, the code of the
    condition, a [JUMP_IF_FALSE] to the exit position, the code of the body,
    a [DISCARD_TOP], a [JUMP] to the start position, and at the exit
    position a load of nil, which ends the code.  So after any number of
    iterations, none included, the machine reaches the end with nil pushed
    on the stack it started with. *)
Theorem While_compile_correct cond body ctx ctx' :
  compile (While cond body) ctx = Ok (tt, ctx') ->
  exists ctx1 ctx2 ctx3 code_c code_b k,
    let start_pos := length (ctx_data ctx) in
    let jump_pos := start_pos + length code_c in
    let exit_pos := jump_pos + 1 + length code_b + 2 in
    compile cond ctx = Ok (tt, ctx1) /\
    ctx_data ctx1 = ctx_data ctx ++ code_c /\
    emit consts.JUMP_IF_FALSE [0] ctx1 = Ok (tt, ctx2) /\
    compile body ctx2 = Ok (tt, ctx3) /\
    ctx_data ctx3 = ctx_data ctx2 ++ code_b /\
    ctx_data ctx' =
      ctx_data ctx ++ code_c ++
      [MkInstr consts.JUMP_IF_FALSE [exit_pos]] ++ code_b ++
      [MkInstr consts.DISCARD_TOP []; MkInstr consts.JUMP [start_pos];
       MkInstr consts.LOAD_CONST [k]] /\
    ctx_data ctx' !! exit_pos = Some (MkInstr consts.LOAD_CONST [k]) /\
    ctx_consts ctx' !! k = Some w_nil /\
    exit_pos + 1 = length (ctx_data ctx') /\
    forall s n e e',
      iterates (ctx_data ctx') (ctx_consts ctx')
        start_pos jump_pos (jump_pos + 1 + length code_b) s n e e' ->
      runs (ctx_data ctx') (ctx_consts ctx')
           (MkFrame start_pos s e)
           (MkFrame (exit_pos + 1) (wrap w_nil :: s) e').
Proof.
  intros H.
  apply While_compile_shape in H as
    (c1 & c2 & c3 & code_b & Hc & Hj & Hb & Hd3 & Hd & Hk & Hs & Hl);
    [|apply compile_extends].
  destruct (ext_data _ _ (compile_extends _ _ _ Hc)) as [code_c Hd1].
  pose proof (emit_Ok _ _ _ _ _ Hj) as (Hd2 & _).
  exists c1, c2, c3, code_c, code_b, (length (ctx_consts c3)).
  set (p1 := length (ctx_data ctx) + length code_c).
  assert (ctx_data ctx' =
          ctx_data ctx ++ code_c ++
          [MkInstr consts.JUMP_IF_FALSE [p1 + 1 + length code_b + 2]] ++
          code_b ++
          [MkInstr consts.DISCARD_TOP [];
           MkInstr consts.JUMP [length (ctx_data ctx)];
           MkInstr consts.LOAD_CONST [length (ctx_consts c3)]]) as Hcode.
  { rewrite Hd, Hd1, <- !app_assoc, length_app. simpl. unfold p1.
    replace (length (ctx_data ctx) + length code_c + length code_b + 3)
      with (length (ctx_data ctx) + length code_c + 1 + length code_b + 2)
      by lia.
    done. }
  assert (ctx_data ctx' !! p1
          = Some (MkInstr consts.JUMP_IF_FALSE [p1 + 1 + length code_b + 2]))
    as Hjif.
  { rewrite Hcode, lookup_app_r, lookup_app_r by lia.
    replace (_ - _ - _) with 0 by lia. done. }
  assert (forall j i,
            [MkInstr consts.DISCARD_TOP [];
             MkInstr consts.JUMP [length (ctx_data ctx)];
             MkInstr consts.LOAD_CONST [length (ctx_consts c3)]] !! j = Some i ->
            ctx_data ctx' !! (p1 + 1 + length code_b + j) = Some i) as Htail.
  { intros j i Hi. rewrite Hcode, lookup_app_r, lookup_app_r by lia.
    rewrite lookup_app_r by (simpl; lia).
    rewrite lookup_app_r by (simpl; lia).
    simpl. replace (_ - _ - _ - _ - _) with j by lia. done. }
  pose proof (Htail 0 _ eq_refl) as Hdiscard.
  pose proof (Htail 1 _ eq_refl) as Hjump.
  pose proof (Htail 2 _ eq_refl) as Hload.
  rewrite Nat.add_0_r in Hdiscard.
  assert (ctx_consts ctx' !! length (ctx_consts c3) = Some w_nil) as Hnil.
  { by rewrite Hk, list_lookup_middle. }
  cbv zeta. fold p1. split_and!.
  - exact Hc.
  - exact Hd1.
  - exact Hj.
  - exact Hb.
  - by rewrite Hd2, Hd3, <- app_assoc.
  - exact Hcode.
  - exact Hload.
  - exact Hnil.
  - rewrite Hcode, !length_app. simpl. unfold p1. lia.
  - intros s n e e' Hit.
    induction Hit as [e e1 v Hcond Hv | n e e1 e2 e3 v w Hcond Hv Hbody _ IH].
    + eapply runs_step; [eapply runs_step; [exact Hcond|]|].
      * rewrite (step_JUMP_IF_FALSE _ _ _ _ _ _ _ Hjif), Hv. first [reflexivity | do 2 f_equal; lia].
      * rewrite (step_LOAD_CONST _ _ _ _ _ _ _ Hload Hnil). first [reflexivity | do 2 f_equal; lia].
    + etrans; [|exact IH].
      eapply runs_step;
        [eapply runs_step;
           [etrans; [eapply runs_step; [exact Hcond|]|exact Hbody]|]|].
      * rewrite (step_JUMP_IF_FALSE _ _ _ _ _ _ _ Hjif), Hv. first [reflexivity | do 2 f_equal; lia].
      * rewrite (step_DISCARD_TOP _ _ _ _ _ _ Hdiscard). first [reflexivity | do 2 f_equal; lia].
      * replace (S (p1 + 1 + length code_b)) with (p1 + 1 + length code_b + 1)
          by lia.
        rewrite (step_JUMP _ _ _ _ _ _ Hjump). first [reflexivity | do 2 f_equal; lia].
Qed.
End machine.

(** * Further properties of the compile methods *)

(** X1.  A compile pass only appends: the instructions, constants and
    symbols a unit held are still there, in place, followed by the new ones;
    every local keeps its slot, and a local bound during the pass gets a
    slot not below the number of locals bound before. *)
Theorem compile_only_appends n ctx ctx' :
  compile n ctx = Ok (tt, ctx') ->
  (exists code, ctx_data ctx' = ctx_data ctx ++ code) /\
  (exists cs, ctx_consts ctx' = ctx_consts ctx ++ cs) /\
  (exists ss, ctx_symbols ctx' = ctx_symbols ctx ++ ss) /\
  (forall name slot,
     ctx_locals ctx !! name = Some slot -> ctx_locals ctx' !! name = Some slot) /\
  (forall name slot,
     ctx_locals ctx !! name = None -> ctx_locals ctx' !! name = Some slot ->
     size (ctx_locals ctx) <= slot).
Proof.
  intros H. destruct (compile_extends n _ _ H) as [Hd Hk Hs Hl Hn].
  split_and!; [exact Hd | exact Hk | exact Hs | |].
  - intros name slot Hslot. eapply lookup_weaken; eassumption.
  - intros name slot Hnone Hsome. eauto.
Qed.

Lemma compile_only_appends_witness :
  exists ctx',
    compile (Assignment "x" (ConstantInt 1))
      {| ctx_data := [MkInstr consts.LOAD_SELF []]; ctx_consts := [w_nil];
         ctx_symbols := ["puts"]; ctx_locals := {[ "a" := 0 ]} |}
      = Ok (tt, ctx') /\
    ctx_locals ctx' !! "a" = Some 0 /\
    exists code, ctx_data ctx' = [MkInstr consts.LOAD_SELF []] ++ code.
Proof.
  assert (exists ctx',
            compile (Assignment "x" (ConstantInt 1))
              {| ctx_data := [MkInstr consts.LOAD_SELF []]; ctx_consts := [w_nil];
                 ctx_symbols := ["puts"]; ctx_locals := {[ "a" := 0 ]} |}
            = Ok (tt, ctx')) as [ctx' Hc]
    by (eexists; vm_compute; reflexivity).
  exists ctx'. split; [exact Hc|].
  destruct (compile_only_appends _ _ _ Hc) as (Hd & _ & _ & Hl & _).
  split; [|exact Hd].
  apply Hl. vm_compute. reflexivity.
Defined.



(** X3.  [Array.compile]: the items are compiled from the first to the
    last, then one [BUILD_ARRAY] carries their number. *)
Theorem Array_compile_order items ctx ctx' :
  compile (Array items) ctx = Ok (tt, ctx') ->
  exists ctx1 code,
    emits_in_order items ctx code ctx1 /\
    ctx_data ctx' =
      ctx_data ctx ++ code ++ [MkInstr consts.BUILD_ARRAY [length items]] /\
    ctx_consts ctx' = ctx_consts ctx1 /\
    ctx_symbols ctx' = ctx_symbols ctx1 /\
    ctx_locals ctx' = ctx_locals ctx1.
Proof.
  intros H. simpl in H. inv_bind H. rename ctx0 into ctx1.
  apply for_each_emits in E as [code Hs].
  pose proof (emits_in_order_data _ _ _ _ Hs) as Hd1.
  apply emit_Ok in H as (Hd & Hk & Hsy & Hl).
  exists ctx1, code. split_and!; try done.
  by rewrite Hd, Hd1, <- app_assoc.
Qed.

Lemma Array_compile_order_witness :
  exists ctx1 code,
    emits_in_order [ConstantInt 1; Self] new_context code ctx1 /\
    [MkInstr consts.LOAD_CONST [0]; MkInstr consts.LOAD_SELF [];
     MkInstr consts.BUILD_ARRAY [2]] =
      [] ++ code ++ [MkInstr consts.BUILD_ARRAY [2]] /\
    [W_Int 1] = ctx_consts ctx1 /\
    @nil string = ctx_symbols ctx1 /\
    (∅ : gmap string nat) = ctx_locals ctx1.
Proof.
  exact (Array_compile_order [ConstantInt 1; Self] new_context _ eq_refl).
Defined.

(** X4.  [BinOp.compile] is the compilation of a send of the operator to the
    left operand with the right operand as only argument: the code of the
    left operand, the code of the right operand, and [SEND] with the symbol
    of the operator and the count 1. *)
Theorem BinOp_compile_code op lhs rhs ctx ctx' :
  compile (BinOp op lhs rhs) ctx = Ok (tt, ctx') ->
  compile (Send lhs op [rhs]) ctx = Ok (tt, ctx') /\
  exists ctx1 ctx2 code_l code_r sym,
    compile lhs ctx = Ok (tt, ctx1) /\
    ctx_data ctx1 = ctx_data ctx ++ code_l /\
    compile rhs ctx1 = Ok (tt, ctx2) /\
    ctx_data ctx2 = ctx_data ctx1 ++ code_r /\
    ctx_data ctx' =
      ctx_data ctx ++ code_l ++ code_r ++ [MkInstr consts.SEND [sym; 1]] /\
    ctx_symbols ctx' !! sym = Some op.
Proof.
  intros H. split; [exact H|].
  simpl in H. unfold Send_compile in H.
  inv_bind H. rename ctx0 into ctx1, E into Hl.
  inv_bind H. rename ctx0 into ctx2, E into Hr.
  inv_bind Hr. apply ret_Ok in E as [_ ->].
  inv_bind H. rename a into sym, E into Hs.
  destruct (ext_data _ _ (compile_extends _ _ _ Hl)) as [code_l Hd1].
  destruct (ext_data _ _ (compile_extends _ _ _ Hr)) as [code_r Hd2].
  apply create_symbol_const_Ok in Hs as (Hsym & _ & Hd3 & _).
  apply emit_Ok in H as (Hd & _ & Hs' & _).
  exists ctx1, ctx2, code_l, code_r, sym. split_and!; try done.
  - by rewrite Hd, Hd3, Hd2, Hd1, <- !app_assoc.
  - by rewrite Hs'.
Qed.

Lemma BinOp_compile_code_witness :
  compile (Send (ConstantInt 1) "+" [ConstantInt 2]) new_context =
    Ok (tt, {| ctx_data := [MkInstr consts.LOAD_CONST [0];
                            MkInstr consts.LOAD_CONST [1];
                            MkInstr consts.SEND [0; 1]];
               ctx_consts := [W_Int 1; W_Int 2];
               ctx_symbols := ["+"]; ctx_locals := ∅ |}).
Proof.
  exact (proj1 (BinOp_compile_code "+" (ConstantInt 1) (ConstantInt 2)
                  new_context _ eq_refl)).
Defined.

(** X5.  [Class.compile]: the enclosing unit gets [LOAD_SELF], a load of the
    class-name symbol, a load of nil in the place of the superclass, a load
    of the code object of the body, and [BUILD_CLASS].  The body is compiled
    in a fresh unit, which ends with [DISCARD_TOP], a load of nil and
    [RETURN].  The [superclass] attribute is not compiled: any other value
    in its place gives the same result. *)
Theorem Class_compile_code name superclass body ctx ctx' :
  compile (Class name superclass body) ctx = Ok (tt, ctx') ->
  (forall other, compile (Class name other body) ctx = Ok (tt, ctx')) /\
  exists inner sym knil kcode,
    compile body new_context = Ok (tt, inner) /\
    ctx_data ctx' =
      ctx_data ctx ++
      [MkInstr consts.LOAD_SELF []; MkInstr consts.LOAD_CONST [sym];
       MkInstr consts.LOAD_CONST [knil]; MkInstr consts.LOAD_CONST [kcode];
       MkInstr consts.BUILD_CLASS []] /\
    ctx_symbols ctx' !! sym = Some name /\
    ctx_consts ctx' !! knil = Some w_nil /\
    ctx_consts ctx' !! kcode =
      Some (W_Code
              (ctx_data inner ++
               [MkInstr consts.DISCARD_TOP [];
                MkInstr consts.LOAD_CONST [length (ctx_consts inner)];
                MkInstr consts.RETURN []])
              (ctx_consts inner ++ [w_nil])
              (ctx_symbols inner) (ctx_locals inner)) /\
    ctx_locals ctx' = ctx_locals ctx.
Proof.
  intros H. split; [intros other; exact H|].
  simpl in H.
  inv_bind H. rename ctx0 into c1, E into H1.
  inv_bind H. rename ctx0 into c2, a into sym, E into H2.
  inv_bind H. rename ctx0 into c3, E into H3.
  inv_bind H. rename ctx0 into c4, a into knil, E into H4.
  inv_bind H. rename ctx0 into c5, E into H5.
  inv_bind H. rename ctx0 into c6, a into bytecode, E into Hin.
  inv_bind H. rename ctx0 into c7, a into kcode, E into H7.
  inv_bind H. rename ctx0 into c8, E into H8.
  apply in_new_context_Ok in Hin as (-> & last_ctx & Hin).
  inv_bind Hin. rename ctx0 into inner, E into Hbody.
  inv_bind Hin. rename ctx0 into i1, E into Hi1.
  inv_bind Hin. rename ctx0 into i2, a into k', E into Hi2.
  inv_bind Hin. rename ctx0 into i3, E into Hi3.
  inv_bind Hin. rename ctx0 into i4, E into Hi4.
  unfold create_bytecode in Hin. injection Hin as <- <-.
  apply emit_Ok in Hi1 as (Hid1 & Hik1 & His1 & Hil1).
  apply create_const_Ok in Hi2 as (-> & Hid2 & Hik2 & His2 & Hil2).
  apply emit_Ok in Hi3 as (Hid3 & Hik3 & His3 & Hil3).
  apply emit_Ok in Hi4 as (Hid4 & Hik4 & His4 & Hil4).
  apply emit_Ok in H1 as (Hd1 & Hk1 & Hs1 & Hl1).
  apply create_symbol_const_Ok in H2 as (Hsym & Hpre & Hd2 & Hk2 & Hl2).
  apply emit_Ok in H3 as (Hd3 & Hk3 & Hs3 & Hl3).
  apply create_const_Ok in H4 as (-> & Hd4 & Hk4 & Hs4 & Hl4).
  apply emit_Ok in H5 as (Hd5 & Hk5 & Hs5 & Hl5).
  apply create_const_Ok in H7 as (-> & Hd7 & Hk7 & Hs7 & Hl7).
  apply emit_Ok in H8 as (Hd8 & Hk8 & Hs8 & Hl8).
  apply emit_Ok in H as (Hd9 & Hk9 & Hs9 & Hl9).
  exists inner, sym, (length (ctx_consts c3)), (length (ctx_consts c5)).
  split_and!.
  - exact Hbody.
  - rewrite Hd9, Hd8, Hd7, Hd5, Hd4, Hd3, Hd2, Hd1, <- !app_assoc. done.
  - by rewrite Hs9, Hs8, Hs7, Hs5, Hs4, Hs3.
  - rewrite Hk9, Hk8, Hk7, Hk5, Hk4, <- app_assoc. simpl.
    by rewrite list_lookup_middle.
  - rewrite Hk9, Hk8, Hk7, list_lookup_middle by done.
    unfold space.newcode. simpl.
    rewrite Hid4, Hid3, Hid2, Hid1, Hik4, Hik3, Hik2, Hik1, <- !app_assoc.
    by rewrite His4, His3, His2, His1, Hil4, Hil3, Hil2, Hil1.
  - congruence.
Qed.

Lemma Class_compile_code_witness :
  exists ctx',
    compile (Class "A" None (Block [Statement Self true])) new_context
      = Ok (tt, ctx') /\
    compile (Class "A" (Some (Variable_ "")) (Block [Statement Self true]))
      new_context = Ok (tt, ctx') /\
    compile (Variable_ "") new_context = Raise IndexError.
Proof.
  assert (exists ctx',
            compile (Class "A" None (Block [Statement Self true])) new_context
            = Ok (tt, ctx')) as [ctx' Hc]
    by (eexists; vm_compute; reflexivity).
  exists ctx'. split; [exact Hc|]. split; [|reflexivity].
  apply (Class_compile_code _ _ _ _ _ Hc).
Defined.

(** The unit a [Function] or a [Class] compiles its body in. *)
Definition nested_unit (n : Node) : option (M Bytecode) :=
  match n with
  | Class _ _ body =>
      Some (compile body ;;
            emit consts.DISCARD_TOP [] ;;
            k <- create_const w_nil ;;
            emit consts.LOAD_CONST [k] ;;
            emit consts.RETURN [] ;;
            create_bytecode)
  | Function _ args body =>
      Some (for_each (fun name => create_local name ;; ret tt) args ;;
            compile body ;;
            emit consts.RETURN [] ;;
            create_bytecode)
  | _ => None
  end.

(** Inversion of every primitive step recorded in the context. *)
Ltac inv_prims :=
  repeat match goal with
  | H : emit _ _ _ = Ok _ |- _ =>
      let Hd := fresh "Hd" in let Hk := fresh "Hk" in
      let Hs := fresh "Hs" in let Hl := fresh "Hl" in
      apply emit_Ok in H as (Hd & Hk & Hs & Hl)
  | H : create_const _ _ = Ok _ |- _ =>
      let Hd := fresh "Hd" in let Hk := fresh "Hk" in
      let Hs := fresh "Hs" in let Hl := fresh "Hl" in
      apply create_const_Ok in H as (_ & Hd & Hk & Hs & Hl)
  | H : create_symbol_const _ _ = Ok _ |- _ =>
      let Hd := fresh "Hd" in let Hk := fresh "Hk" in
      let Hs := fresh "Hs" in let Hl := fresh "Hl" in
      apply create_symbol_const_Ok in H as (_ & Hs & Hd & Hk & Hl)
  end.

Ltac rewrite_consts :=
  repeat match goal with
  | H : ctx_consts ?a = _ |- context [ctx_consts ?a] => rewrite H
  end.

Lemma nested_unit_inv n m ctx ctx' :
  nested_unit n = Some m ->
  compile n ctx = Ok (tt, ctx') ->
  exists bc inner,
    m new_context = Ok (bc, inner) /\
    last (ctx_consts ctx') = Some (space.newcode bc) /\
    ctx_locals ctx' = ctx_locals ctx.
Proof.
  destruct n; simpl; try discriminate; intros [= <-] H.
  - inv_binds H.
    match goal with
    | Hin : in_new_context _ _ = Ok (?bc, _) |- _ =>
        apply in_new_context_Ok in Hin as (-> & inner & Hin);
        exists bc, inner; split; [exact Hin|]
    end.
    inv_prims. split; [|congruence].
    rewrite_consts. by rewrite last_snoc.
  - inv_binds H.
    match goal with
    | Hin : in_new_context _ _ = Ok (?bc, _) |- _ =>
        apply in_new_context_Ok in Hin as (-> & inner & Hin);
        exists bc, inner; split; [exact Hin|]
    end.
    inv_prims. split; [|congruence].
    rewrite_consts. by rewrite last_snoc.
Qed.

Lemma nested_unit_succeeds n m bc inner ctx :
  nested_unit n = Some m ->
  m new_context = Ok (bc, inner) ->
  succeeds (compile n) ctx.
Proof.
  destruct n; simpl; try discriminate; intros [= <-] Hm.
  - repeat run_step.
    eapply succeeds_bind; [unfold in_new_context; by rewrite Hm|].
    repeat run_step.
  - eapply succeeds_bind; [unfold in_new_context; by rewrite Hm|].
    repeat run_step.
Qed.

(** X6.  The unit of a [Function] or [Class] is compiled without regard to
    the enclosing unit: if the definition compiles in one context it
    compiles in every context, the code object it adds as the last constant
    is the same, and the local-variable table of the enclosing unit is left
    as it was (the body sees none of its locals, and binds none in it). *)
Theorem nested_unit_independent_of_context n m ctx1 ctx1' ctx2 :
  nested_unit n = Some m ->
  compile n ctx1 = Ok (tt, ctx1') ->
  exists ctx2' code_object,
    compile n ctx2 = Ok (tt, ctx2') /\
    last (ctx_consts ctx1') = Some code_object /\
    last (ctx_consts ctx2') = Some code_object /\
    ctx_locals ctx1' = ctx_locals ctx1 /\
    ctx_locals ctx2' = ctx_locals ctx2.
Proof.
  intros Hn H1.
  destruct (nested_unit_inv _ _ _ _ Hn H1) as (bc & inner & Hm & Hlast1 & Hl1).
  destruct (succeeds_unit _ _ (nested_unit_succeeds _ _ _ _ ctx2 Hn Hm))
    as [ctx2' H2].
  destruct (nested_unit_inv _ _ _ _ Hn H2) as (bc' & inner' & Hm' & Hlast2 & Hl2).
  assert (bc' = bc) as -> by congruence.
  exists ctx2', (space.newcode bc). done.
Qed.

Lemma nested_unit_independent_of_context_witness :
  exists ctx2' code_object,
    compile (Function "f" [] (Block [Statement (Variable_ "x") true]))
      {| ctx_data := []; ctx_consts := []; ctx_symbols := [];
         ctx_locals := {[ "x" := 0 ]} |} = Ok (tt, ctx2') /\
    last [W_Code [MkInstr consts.LOAD_SELF []; MkInstr consts.SEND [0; 0];
                  MkInstr consts.RETURN []] [] ["x"] ∅] = Some code_object /\
    last (ctx_consts ctx2') = Some code_object /\
    (∅ : gmap string nat) = ∅ /\
    ctx_locals ctx2' = {[ "x" := 0 ]}.
Proof.
  exact (nested_unit_independent_of_context
           (Function "f" [] (Block [Statement (Variable_ "x") true])) _
           new_context _
           {| ctx_data := []; ctx_consts := []; ctx_symbols := [];
              ctx_locals := {[ "x" := 0 ]} |}
           eq_refl eq_refl).
Defined.

(** ** Assignments and the reads that follow them *)

(** X7.  [Assignment.compile] with a target that does not begin with an
    uppercase letter binds the target to its slot before the value is
    compiled, so the value is compiled with the target already a local;
    then it stores into that slot, which the target still has at the end. *)
Theorem Assignment_local_compile_code target value ctx ctx' :
  begins_with_uppercase target = false ->
  compile (Assignment target value) ctx = Ok (tt, ctx') ->
  exists slot ctx0 ctx1 code,
    create_local target ctx = Ok (slot, ctx0) /\
    ctx_locals ctx0 !! target = Some slot /\
    compile value ctx0 = Ok (tt, ctx1) /\
    ctx_data ctx1 = ctx_data ctx ++ code /\
    ctx_data ctx' = ctx_data ctx ++ code ++ [MkInstr consts.STORE_LOCAL [slot]] /\
    ctx_locals ctx' !! target = Some slot.
Proof.
  intros Hup H. simpl in H.
  inv_bind H. apply first_char_Ok in E as (-> & rest & ->).
  simpl in Hup. rewrite Hup in H.
  inv_bind H. rename a0 into slot, ctx0 into c0, E into Hloc.
  inv_bind H. rename ctx0 into c1, E into Hv.
  pose proof (create_local_Ok _ _ _ _ Hloc) as (Hslot & Hd0 & _).
  pose proof (compile_extends _ _ _ Hv) as [[code Hd1] _ _ Hsub _].
  apply emit_Ok in H as (Hd & _ & _ & Hl).
  exists slot, c0, c1, code. split_and!; try done.
  - by rewrite Hd1, Hd0.
  - by rewrite Hd, Hd1, Hd0, <- app_assoc.
  - rewrite Hl. eapply lookup_weaken; eassumption.
Qed.

Lemma Assignment_local_compile_code_witness :
  compile (Assignment "x" (Variable_ "x")) new_context =
    Ok (tt, {| ctx_data := [MkInstr consts.LOAD_LOCAL [0];
                            MkInstr consts.STORE_LOCAL [0]];
               ctx_consts := []; ctx_symbols := [];
               ctx_locals := {[ "x" := 0 ]} |}) /\
  exists slot ctx0 ctx1 code,
    create_local "x" new_context = Ok (slot, ctx0) /\
    ctx_locals ctx0 !! "x" = Some slot /\
    compile (Variable_ "x") ctx0 = Ok (tt, ctx1) /\
    ctx_data ctx1 = [] ++ code /\
    [MkInstr consts.LOAD_LOCAL [0]; MkInstr consts.STORE_LOCAL [0]] =
      [] ++ code ++ [MkInstr consts.STORE_LOCAL [slot]] /\
    ({[ "x" := 0 ]} : gmap string nat) !! "x" = Some slot.
Proof.
  assert (compile (Assignment "x" (Variable_ "x")) new_context =
    Ok (tt, {| ctx_data := [MkInstr consts.LOAD_LOCAL [0];
                            MkInstr consts.STORE_LOCAL [0]];
               ctx_consts := []; ctx_symbols := [];
               ctx_locals := {[ "x" := 0 ]} |})) as Hc
    by (vm_compute; reflexivity).
  split; [exact Hc|].
  exact (Assignment_local_compile_code "x" (Variable_ "x") new_context _
           eq_refl Hc).
Defined.

(** X8.  [Assignment.compile] with a target that begins with an uppercase
    letter compiles the value first, in the context as it is, and then
    stores into the constant of that name: the operand of [STORE_CONSTANT]
    is the symbol index of the target, and the assignment itself binds no
    local. *)
Theorem Assignment_constant_compile_code target value ctx ctx' :
  begins_with_uppercase target = true ->
  compile (Assignment target value) ctx = Ok (tt, ctx') ->
  exists ctx1 code k,
    compile value ctx = Ok (tt, ctx1) /\
    ctx_data ctx1 = ctx_data ctx ++ code /\
    ctx_data ctx' = ctx_data ctx ++ code ++ [MkInstr consts.STORE_CONSTANT [k]] /\
    ctx_symbols ctx' !! k = Some target /\
    ctx_locals ctx' = ctx_locals ctx1.
Proof.
  intros Hup H. simpl in H.
  inv_bind H. apply first_char_Ok in E as (-> & rest & ->).
  simpl in Hup. rewrite Hup in H.
  inv_bind H. rename ctx0 into c1, E into Hv.
  inv_bind H. rename a0 into k, ctx0 into c2, E into Hs.
  pose proof (compile_extends _ _ _ Hv) as [[code Hd1] _ _ _ _].
  apply create_symbol_const_Ok in Hs as (Hsym & _ & Hd2 & _ & Hl2).
  apply emit_Ok in H as (Hd & _ & Hs' & Hl).
  exists c1, code, k. split_and!; try done.
  - by rewrite Hd, Hd2, Hd1, <- app_assoc.
  - by rewrite Hs'.
  - congruence.
Qed.

Lemma Assignment_constant_compile_code_witness :
  exists ctx1 code k,
    compile (ConstantInt 1) new_context = Ok (tt, ctx1) /\
    ctx_data ctx1 = [] ++ code /\
    [MkInstr consts.LOAD_CONST [0]; MkInstr consts.STORE_CONSTANT [0]] =
      [] ++ code ++ [MkInstr consts.STORE_CONSTANT [k]] /\
    ["X"] !! k = Some "X" /\
    (∅ : gmap string nat) = ctx_locals ctx1.
Proof.
  exact (Assignment_constant_compile_code "X" (ConstantInt 1) new_context _
           eq_refl eq_refl).
Defined.

(** A name that begins with an uppercase letter is none of the reserved
    names. *)
Lemma uppercase_not_reserved name :
  begins_with_uppercase name = true ->
  named_consts name = None /\ name <> "self".
Proof.
  intros Hup. unfold named_consts.
  destruct (String.eqb_spec name "true") as [->|_]; [done|].
  destruct (String.eqb_spec name "false") as [->|_]; [done|].
  destruct (String.eqb_spec name "nil") as [->|_]; [done|].
  split; [done|]. by intros ->.
Qed.

(** What [Variable.compile] does with a bound name that is not reserved. *)
Lemma Variable_compile_local name slot ctx :
  named_consts name = None -> name <> "self" ->
  ctx_locals ctx !! name = Some slot ->
  compile (Variable_ name) ctx = emit consts.LOAD_LOCAL [slot] ctx.
Proof.
  intros Hn Hs Hl. simpl. rewrite Hn.
  destruct (String.eqb_spec name "self"); [done|].
  unfold bind at 1. unfold local_defined.
  rewrite bool_decide_true by eauto.
  unfold bind, create_local. by rewrite Hl.
Qed.

(** X9.  A local written by an assignment is read back from the slot it
    was stored into, right after the assignment and after anything else
    compiled later in the same unit: the read is one [LOAD_LOCAL] of that
    slot and changes nothing else in the context. *)
Theorem local_read_after_write x value ctx ctx1 :
  begins_with_uppercase x = false ->
  named_consts x = None -> x <> "self" ->
  compile (Assignment x value) ctx = Ok (tt, ctx1) ->
  exists slot,
    last (ctx_data ctx1) = Some (MkInstr consts.STORE_LOCAL [slot]) /\
    compile (Variable_ x) ctx1 = emit consts.LOAD_LOCAL [slot] ctx1 /\
    forall n ctx2,
      compile n ctx1 = Ok (tt, ctx2) ->
      compile (Variable_ x) ctx2 = emit consts.LOAD_LOCAL [slot] ctx2.
Proof.
  intros Hup Hn Hs H. simpl in H.
  inv_bind H. apply first_char_Ok in E as (-> & rest & ->).
  simpl in Hup. rewrite Hup in H.
  inv_bind H. rename a0 into slot, ctx0 into c0, E into Hloc.
  inv_bind H. rename ctx0 into c1, E into Hv.
  apply create_local_Ok in Hloc as (Hslot & _).
  pose proof (compile_extends _ _ _ Hv) as [_ _ _ Hsub _].
  apply emit_Ok in H as (Hd & _ & _ & Hl).
  assert (ctx_locals ctx1 !! String a rest = Some slot) as Hx.
  { rewrite Hl. eapply lookup_weaken; eassumption. }
  exists slot. split_and!.
  - by rewrite Hd, last_snoc.
  - by apply Variable_compile_local.
  - intros n ctx2 Hc. apply Variable_compile_local; [done | done |].
    pose proof (compile_extends _ _ _ Hc) as [_ _ _ Hsub2 _].
    eapply lookup_weaken; eassumption.
Qed.

Lemma local_read_after_write_witness :
  exists ctx1 slot,
    compile (Assignment "x" (ConstantInt 1)) new_context = Ok (tt, ctx1) /\
    last (ctx_data ctx1) = Some (MkInstr consts.STORE_LOCAL [slot]) /\
    compile (Variable_ "x") ctx1 = emit consts.LOAD_LOCAL [slot] ctx1.
Proof.
  assert (exists ctx1,
            compile (Assignment "x" (ConstantInt 1)) new_context = Ok (tt, ctx1))
    as [ctx1 Hc] by (eexists; vm_compute; reflexivity).
  assert ("x" <> "self") as Hs by discriminate.
  destruct (local_read_after_write "x" (ConstantInt 1) new_context ctx1
              eq_refl eq_refl Hs Hc) as (slot & Hlast & Hread & _).
  exists ctx1, slot. done.
Defined.

Lemma create_symbol_const_again name ctx k ctx' :
  create_symbol_const name ctx = Ok (k, ctx') ->
  create_symbol_const name ctx' = Ok (k, ctx').
Proof.
  unfold create_symbol_const.
  destruct (list_find _ (ctx_symbols ctx)) as [[i s]|] eqn:Hf.
  - intros [= <- <-]. by rewrite Hf.
  - intros [= <- <-]. simpl.
    assert (list_find (fun s => s = name) (ctx_symbols ctx ++ [name])
            = Some (length (ctx_symbols ctx), name)) as ->; [|done].
    apply list_find_app_Some. right. split_and!; [lia | done |].
    rewrite Nat.sub_diag. simpl. by rewrite decide_True.
Qed.

(** What [Variable.compile] does with an unbound name that begins with an
    uppercase letter. *)
Lemma Variable_compile_constant name ctx :
  begins_with_uppercase name = true ->
  ctx_locals ctx !! name = None ->
  compile (Variable_ name) ctx =
    (k <- create_symbol_const name ;; emit consts.LOAD_CONSTANT [k]) ctx.
Proof.
  intros Hup Hl. destruct (uppercase_not_reserved _ Hup) as [Hn Hs].
  cbn [compile]. rewrite Hn.
  destruct (String.eqb_spec name "self"); [done|].
  unfold bind at 1. unfold local_defined.
  rewrite bool_decide_false by (rewrite Hl; by intros [? ?]).
  destruct name as [|c rest]; [done|].
  unfold bind at 1. simpl in Hup |- *. by rewrite Hup.
Qed.

(** X10.  A constant written by an assignment is read back under the same
    symbol: when the name is not also a local of the unit, the read that
    follows is one [LOAD_CONSTANT] with the operand of the [STORE_CONSTANT],
    and changes nothing in the context. *)
Theorem constant_read_after_write x value ctx ctx1 :
  begins_with_uppercase x = true ->
  compile (Assignment x value) ctx = Ok (tt, ctx1) ->
  ctx_locals ctx1 !! x = None ->
  exists k,
    last (ctx_data ctx1) = Some (MkInstr consts.STORE_CONSTANT [k]) /\
    ctx_symbols ctx1 !! k = Some x /\
    compile (Variable_ x) ctx1 = emit consts.LOAD_CONSTANT [k] ctx1.
Proof.
  intros Hup H Hnl.
  rewrite (Variable_compile_constant _ _ Hup Hnl).
  cbn [compile] in H.
  inv_bind H. apply first_char_Ok in E as (-> & rest & Hx).
  assert (isupper a = true) as Ha by (rewrite Hx in Hup; exact Hup).
  rewrite Ha in H.
  inv_bind H. rename ctx0 into c1, E into Hv.
  inv_bind H. rename a0 into k, ctx0 into c2, E into Hsym.
  pose proof (create_symbol_const_again _ _ _ _ Hsym) as Hagain.
  apply create_symbol_const_Ok in Hsym as (Hk & _).
  pose proof (emit_Ok _ _ _ _ _ H) as (Hd & Hkk & Hs' & Hl).
  exists k. split_and!.
  - by rewrite Hd, last_snoc.
  - by rewrite Hs'.
  - assert (create_symbol_const x ctx1 = Ok (k, ctx1)) as Hsame.
    { unfold emit in H. injection H as <-.
      unfold create_symbol_const in Hagain |- *. simpl.
      destruct (list_find _ (ctx_symbols c2)) as [[i s]|].
      - by injection Hagain as ->.
      - injection Hagain as _ Hc2.
        apply (f_equal (fun c => length (ctx_symbols c))) in Hc2.
        simpl in Hc2. rewrite length_app in Hc2. simpl in Hc2. lia. }
    by rewrite (bind_Ok_intro _ _ _ _ _ Hsame).
Qed.

Lemma constant_read_after_write_witness :
  exists ctx1 k,
    compile (Assignment "X" (ConstantInt 1)) new_context = Ok (tt, ctx1) /\
    last (ctx_data ctx1) = Some (MkInstr consts.STORE_CONSTANT [k]) /\
    ctx_symbols ctx1 !! k = Some "X" /\
    compile (Variable_ "X") ctx1 = emit consts.LOAD_CONSTANT [k] ctx1.
Proof.
  assert (exists ctx1,
            compile (Assignment "X" (ConstantInt 1)) new_context = Ok (tt, ctx1))
    as [ctx1 Hc] by (eexists; vm_compute; reflexivity).
  assert (ctx_locals ctx1 !! "X" = None) as Hl.
  { vm_compute in Hc. injection Hc as <-. reflexivity. }
  destruct (constant_read_after_write "X" (ConstantInt 1) new_context ctx1
              eq_refl Hc Hl) as (k & H1 & H2 & H3).
  exists ctx1, k. done.
Defined.

(** ** Jump targets *)

Definition is_jump (c : consts.Opcode) : bool :=
  match c with
  | consts.JUMP | consts.JUMP_IF_FALSE => true
  | _ => false
  end.

(** A jump instruction has one operand, a position from [lo] to [hi]. *)
Definition jump_in_range (lo hi : nat) (i : Instr) : Prop :=
  is_jump (opcode i) = true ->
  exists t, operands i = [t] /\ lo <= t <= hi.

(** The instructions added from [ctx] to [ctx'] jump to positions between
    the first of them and the position after the last of them. *)
Definition jumps_stay_within (ctx ctx' : CompilerContext) : Prop :=
  exists code,
    ctx_data ctx' = ctx_data ctx ++ code /\
    Forall (jump_in_range (length (ctx_data ctx)) (length (ctx_data ctx'))) code.

Lemma jump_in_range_widen lo hi lo' hi' i :
  lo' <= lo -> hi <= hi' -> jump_in_range lo hi i -> jump_in_range lo' hi' i.
Proof.
  intros Hlo Hhi H Hj. destruct (H Hj) as (t & Ht & Hr).
  exists t. split; [done | lia].
Qed.

Lemma jumps_stay_within_refl ctx : jumps_stay_within ctx ctx.
Proof. exists []. by rewrite app_nil_r. Qed.

Lemma jumps_stay_within_same ctx ctx' :
  ctx_data ctx' = ctx_data ctx -> jumps_stay_within ctx ctx'.
Proof. intros Hd. exists []. by rewrite Hd, app_nil_r. Qed.

Lemma jumps_stay_within_trans c1 c2 c3 :
  jumps_stay_within c1 c2 -> jumps_stay_within c2 c3 ->
  jumps_stay_within c1 c3.
Proof.
  intros (d1 & Hd1 & H1) (d2 & Hd2 & H2). exists (d1 ++ d2).
  split; [by rewrite Hd2, Hd1, app_assoc|].
  assert (length (ctx_data c1) <= length (ctx_data c2)) as Hle1
    by (rewrite Hd1, length_app; lia).
  assert (length (ctx_data c2) <= length (ctx_data c3)) as Hle2
    by (rewrite Hd2, length_app; lia).
  apply Forall_app. split.
  - eapply Forall_impl; [exact H1|]. intros i.
    apply jump_in_range_widen; lia.
  - eapply Forall_impl; [exact H2|]. intros i.
    apply jump_in_range_widen; lia.
Qed.

Lemma emit_jumps_stay_within c args ctx u ctx' :
  is_jump c = false ->
  emit c args ctx = Ok (u, ctx') -> jumps_stay_within ctx ctx'.
Proof.
  intros Hc (Hd & _)%emit_Ok. exists [MkInstr c args]. split; [done|].
  apply Forall_singleton. intros Hj. simpl in Hj. congruence.
Qed.

Lemma for_each_jumps_stay_within (f : Node -> M unit) (l : list Node) :
  Forall (fun n => forall c c', f n c = Ok (tt, c') -> jumps_stay_within c c') l ->
  forall ctx ctx', for_each f l ctx = Ok (tt, ctx') -> jumps_stay_within ctx ctx'.
Proof.
  induction 1 as [|n l Hn _ IH]; intros ctx ctx' H; simpl in H.
  - apply ret_Ok in H as [_ ->]. apply jumps_stay_within_refl.
  - inv_bind H. eapply jumps_stay_within_trans; eauto.
Qed.

Lemma for_each_reversed_jumps_stay_within (f : Node -> M unit) (l : list Node) :
  Forall (fun n => forall c c', f n c = Ok (tt, c') -> jumps_stay_within c c') l ->
  forall ctx ctx', for_each_reversed f l ctx = Ok (tt, ctx') ->
                   jumps_stay_within ctx ctx'.
Proof.
  induction 1 as [|n l Hn _ IH]; intros ctx ctx' H; simpl in H.
  - apply ret_Ok in H as [_ ->]. apply jumps_stay_within_refl.
  - inv_bind H. eapply jumps_stay_within_trans; eauto.
Qed.

Ltac step_jumps :=
  match goal with
  | H : emit _ _ ?c = Ok (_, ?c') |- jumps_stay_within ?c _ =>
      eapply jumps_stay_within_trans;
      [eapply emit_jumps_stay_within; [|exact H]; reflexivity|]
  | H : create_const _ ?c = Ok (_, ?c') |- jumps_stay_within ?c _ =>
      let Hd := fresh in
      apply create_const_Ok in H as (_ & Hd & _);
      eapply jumps_stay_within_trans; [exact (jumps_stay_within_same _ _ Hd)|]
  | H : create_int_const _ ?c = Ok (_, ?c') |- jumps_stay_within ?c _ =>
      let Hd := fresh in
      apply create_const_Ok in H as (_ & Hd & _);
      eapply jumps_stay_within_trans; [exact (jumps_stay_within_same _ _ Hd)|]
  | H : create_string_const _ ?c = Ok (_, ?c') |- jumps_stay_within ?c _ =>
      let Hd := fresh in
      apply create_const_Ok in H as (_ & Hd & _);
      eapply jumps_stay_within_trans; [exact (jumps_stay_within_same _ _ Hd)|]
  | H : create_symbol_const _ ?c = Ok (_, ?c') |- jumps_stay_within ?c _ =>
      let Hd := fresh in
      apply create_symbol_const_Ok in H as (_ & _ & Hd & _);
      eapply jumps_stay_within_trans; [exact (jumps_stay_within_same _ _ Hd)|]
  | H : create_local _ ?c = Ok (_, ?c') |- jumps_stay_within ?c _ =>
      let Hd := fresh in
      apply create_local_Ok in H as (_ & Hd & _);
      eapply jumps_stay_within_trans; [exact (jumps_stay_within_same _ _ Hd)|]
  | H : compile ?n ?c = Ok (_, ?c'),
    IH : forall ctx ctx', compile ?n ctx = Ok (tt, ctx') -> jumps_stay_within ctx ctx'
    |- jumps_stay_within ?c _ =>
      eapply jumps_stay_within_trans; [exact (IH _ _ H)|]
  | H : in_new_context _ ?c = Ok (_, ?c') |- jumps_stay_within ?c _ =>
      apply in_new_context_Ok in H as [-> _]
  | H : get_pos ?c = Ok (_, ?c') |- jumps_stay_within ?c _ =>
      apply get_pos_Ok in H as [-> ->]
  | H : local_defined _ ?c = Ok (_, ?c') |- jumps_stay_within ?c _ =>
      apply local_defined_Ok in H as [-> _]
  | H : first_char _ ?c = Ok (_, ?c') |- jumps_stay_within ?c _ =>
      apply first_char_Ok in H as [-> _]
  | H : ret _ ?c = Ok (_, ?c') |- jumps_stay_within ?c _ =>
      apply ret_Ok in H as [_ ->]
  | |- jumps_stay_within ?c ?c => apply jumps_stay_within_refl
  end.

(** The code of a conditional or of a loop, given that of its parts. *)
Lemma branch_jumps_stay_within ctx c1 c2 c3 ctx' code_b j1 tail :
  jumps_stay_within ctx c1 ->
  jumps_stay_within c2 c3 ->
  ctx_data c2 = ctx_data c1 ++ [MkInstr consts.JUMP_IF_FALSE [0]] ->
  ctx_data c3 = ctx_data c1 ++ MkInstr consts.JUMP_IF_FALSE [0] :: code_b ->
  ctx_data ctx' = ctx_data c1 ++ j1 :: code_b ++ tail ->
  Forall (jump_in_range (length (ctx_data ctx)) (length (ctx_data ctx')))
         (j1 :: tail) ->
  jumps_stay_within ctx ctx'.
Proof.
  intros (code_c & Hd1 & H1) (code_b' & Hd3' & H3) Hd2 Hd3 Hd Htail.
  rewrite Hd2, <- app_assoc in Hd3'. simpl in Hd3'.
  assert (code_b' = code_b) as -> by (rewrite Hd3 in Hd3'; by simplify_list_eq).
  exists (code_c ++ j1 :: code_b ++ tail).
  split; [by rewrite Hd, Hd1, <- app_assoc|].
  apply Forall_cons in Htail as [Hj1 Htail].
  assert (length (ctx_data ctx) <= length (ctx_data c1)) as Hle1
    by (rewrite Hd1, length_app; lia).
  assert (length (ctx_data c1) <= length (ctx_data c2)) as Hle2
    by (rewrite Hd2, length_app; lia).
  assert (length (ctx_data c3) <= length (ctx_data ctx')) as Hle3.
  { rewrite Hd, Hd3, !length_app. simpl. rewrite length_app. lia. }
  assert (length (ctx_data c1) <= length (ctx_data c3)) as Hle4
    by (rewrite Hd3, length_app; lia).
  apply Forall_app. split; [|apply Forall_cons; split; [done|]].
  - eapply Forall_impl; [exact H1|]. intros i.
    apply jump_in_range_widen; lia.
  - apply Forall_app. split; [|done].
    eapply Forall_impl; [exact H3|]. intros i.
    apply jump_in_range_widen; lia.
Qed.

(** X11.  Every [JUMP] and [JUMP_IF_FALSE] that compiling a node adds to a
    unit has one operand, and it is a position between the first
    instruction of the node and the position after its last one: no jump
    leaves the code of the node it belongs to, and no placeholder is left
    pointing before it. *)
Theorem jump_targets_within_node (n : Node) :
  forall ctx ctx',
    compile n ctx = Ok (tt, ctx') -> jumps_stay_within ctx ctx'.
Proof.
  induction n using Node_ind'; intros ctx ctx' HC.
  - simpl in HC. inv_binds HC. repeat step_jumps.
  - simpl in HC. eapply for_each_jumps_stay_within; eauto.
  - simpl in HC. inv_bind HC. destruct dont_pop; simpl in HC; repeat step_jumps.
  - simpl in HC. inv_bind HC. destruct (isupper a); inv_binds HC; repeat step_jumps.
  - simpl in HC. inv_binds HC. repeat step_jumps.
  - apply If_compile_shape in HC as
      (c1 & c2 & c3 & code_b & Hc & Hj & Hb & Hd3 & Hd & Hk & Hs & Hl);
      [|apply compile_extends].
    pose proof (emit_Ok _ _ _ _ _ Hj) as (Hd2 & _).
    destruct (ext_data _ _ (compile_extends _ _ _ Hc)) as [code_c Hd1].
    eapply branch_jumps_stay_within;
      [exact (IHn1 _ _ Hc) | exact (IHn2 _ _ Hb) | exact Hd2 | exact Hd3
      | exact Hd |].
    assert (length (ctx_data ctx') = length (ctx_data c1) + length code_b + 3)
      as Hlen by (rewrite Hd, !length_app; simpl; rewrite length_app; simpl; lia).
    assert (length (ctx_data ctx) <= length (ctx_data c1)) as Hle
      by (rewrite Hd1, length_app; lia).
    repeat apply Forall_cons_2; [| | |apply Forall_nil_2].
    + intros _. eexists. split; [reflexivity|]. simpl. lia.
    + intros _. eexists. split; [reflexivity|]. simpl. lia.
    + intros Hjmp. simpl in Hjmp. congruence.
  - apply While_compile_shape in HC as
      (c1 & c2 & c3 & code_b & Hc & Hj & Hb & Hd3 & Hd & Hk & Hs & Hl);
      [|apply compile_extends].
    pose proof (emit_Ok _ _ _ _ _ Hj) as (Hd2 & _).
    destruct (ext_data _ _ (compile_extends _ _ _ Hc)) as [code_c Hd1].
    eapply branch_jumps_stay_within;
      [exact (IHn1 _ _ Hc) | exact (IHn2 _ _ Hb) | exact Hd2 | exact Hd3
      | exact Hd |].
    assert (length (ctx_data ctx') = length (ctx_data c1) + length code_b + 4)
      as Hlen by (rewrite Hd, !length_app; simpl; rewrite length_app; simpl; lia).
    assert (length (ctx_data ctx) <= length (ctx_data c1)) as Hle
      by (rewrite Hd1, length_app; lia).
    repeat apply Forall_cons_2; [| | | |apply Forall_nil_2].
    + intros _. eexists. split; [reflexivity|]. simpl. lia.
    + intros Hjmp. simpl in Hjmp. congruence.
    + intros _. eexists. split; [reflexivity|]. simpl. lia.
    + intros Hjmp. simpl in Hjmp. congruence.
  - simpl in HC. inv_binds HC. repeat step_jumps.
  - simpl in HC. inv_binds HC. repeat step_jumps.
  - simpl in HC. inv_binds HC. repeat step_jumps.
  - simpl in HC. unfold Send_compile in HC.
    inv_bind HC. rename E into Hl.
    inv_bind HC. rename E into Hr. inv_bind Hr. apply ret_Ok in E as [_ ->].
    inv_binds HC. repeat step_jumps.
  - simpl in HC. unfold Send_compile in HC. inv_binds HC.
    repeat step_jumps.
    eapply jumps_stay_within_trans;
      [eapply for_each_reversed_jumps_stay_within; eauto|].
    repeat step_jumps.
  - simpl in HC. unfold Self_compile in HC. repeat step_jumps.
  - simpl in HC. destruct (named_consts name) as [w|].
    { inv_binds HC. repeat step_jumps. }
    destruct (String.eqb name "self").
    { repeat step_jumps. }
    inv_bind HC. destruct a.
    { inv_binds HC. repeat step_jumps. }
    inv_bind HC. destruct (isupper a).
    { inv_binds HC. repeat step_jumps. }
    unfold Send_compile, Self_compile in HC. simpl in HC. inv_binds HC.
    repeat step_jumps.
  - simpl in HC. inv_binds HC. repeat step_jumps.
  - simpl in HC. inv_bind HC.
    eapply jumps_stay_within_trans; [eapply for_each_jumps_stay_within; eauto|].
    repeat step_jumps.
  - simpl in HC. inv_binds HC. repeat step_jumps.
  - simpl in HC. inv_binds HC. repeat step_jumps.
Qed.

Lemma jump_targets_within_node_witness :
  jumps_stay_within new_context
    {| ctx_data := [MkInstr consts.LOAD_CONST [0];
                    MkInstr consts.JUMP_IF_FALSE [4];
                    MkInstr consts.LOAD_CONST [1];
                    MkInstr consts.JUMP [5];
                    MkInstr consts.LOAD_CONST [2]];
       ctx_consts := [w_true; W_Int 1; w_nil];
       ctx_symbols := []; ctx_locals := ∅ |}.
Proof.
  apply (jump_targets_within_node (If (Variable_ "true") (ConstantInt 1))).
  vm_compute. reflexivity.
Defined.

(** ** More on [Node.__eq__] *)





(** ** [Block.compile] *)




(** ** Instance variables *)

(** X15.  An instance variable written by an assignment is read back under
    the same symbol: [InstanceVariableAssignment.compile] ends with
    [LOAD_SELF] and [STORE_INSTANCE_VAR] of the symbol index of the name,
    and [InstanceVariable.compile] right after it emits [LOAD_SELF] and
    [LOAD_INSTANCE_VAR] of the same index and changes no pool.  No
    character of the name is read: the empty name is compiled like any
    other. *)
Theorem instance_variable_read_after_write name value ctx ctx1 :
  compile (InstanceVariableAssignment name value) ctx = Ok (tt, ctx1) ->
  exists ctx0 code k,
    compile value ctx = Ok (tt, ctx0) /\
    ctx_data ctx0 = ctx_data ctx ++ code /\
    ctx_data ctx1 =
      ctx_data ctx ++ code ++
      [MkInstr consts.LOAD_SELF []; MkInstr consts.STORE_INSTANCE_VAR [k]] /\
    ctx_symbols ctx1 !! k = Some name /\
    exists ctx2,
      compile (InstanceVariable name) ctx1 = Ok (tt, ctx2) /\
      ctx_data ctx2 =
        ctx_data ctx1 ++
        [MkInstr consts.LOAD_SELF []; MkInstr consts.LOAD_INSTANCE_VAR [k]] /\
      ctx_consts ctx2 = ctx_consts ctx1 /\
      ctx_symbols ctx2 = ctx_symbols ctx1 /\
      ctx_locals ctx2 = ctx_locals ctx1.
Proof.
  intros H. cbn [compile] in H.
  inv_bind H. rename ctx0 into c0, E into Hv.
  inv_bind H. rename ctx0 into c1, E into Hself.
  inv_bind H. rename ctx0 into c2, a into k, E into Hsym.
  destruct (ext_data _ _ (compile_extends _ _ _ Hv)) as [code Hd0].
  pose proof (create_symbol_const_again _ _ _ _ Hsym) as Hagain.
  apply emit_Ok in Hself as (Hd1 & _).
  apply create_symbol_const_Ok in Hsym as (Hk & _ & Hd2 & _).
  pose proof (emit_Ok _ _ _ _ _ H) as (Hd & Hkk & Hs & Hl).
  exists c0, code, k. split_and!; try done.
  - by rewrite Hd, Hd2, Hd1, Hd0, <- !app_assoc.
  - by rewrite Hs.
  - assert (create_symbol_const name ctx1 = Ok (k, ctx1)) as Hsame.
    { unfold emit in H. injection H as <-.
      unfold create_symbol_const in Hagain |- *. simpl.
      destruct (list_find _ (ctx_symbols c2)) as [[i s]|].
      - by injection Hagain as ->.
      - injection Hagain as _ Hc2.
        apply (f_equal (fun c => length (ctx_symbols c))) in Hc2.
        simpl in Hc2. rewrite length_app in Hc2. simpl in Hc2. lia. }
    eexists. cbn [compile]. split.
    + unfold bind at 1. simpl.
      unfold bind at 1. simpl.
      unfold create_symbol_const in Hsame |- *. simpl.
      destruct (list_find _ (ctx_symbols ctx1)) as [[i s]|] eqn:Hf.
      * injection Hsame as ->. reflexivity.
      * injection Hsame as _ Hc2.
        apply (f_equal (fun c => length (ctx_symbols c))) in Hc2.
        simpl in Hc2. rewrite length_app in Hc2. simpl in Hc2. lia.
    + simpl. rewrite <- app_assoc. done.
Qed.

Lemma instance_variable_read_after_write_witness :
  exists ctx1 ctx2 k,
    compile (InstanceVariableAssignment "" (ConstantInt 1)) new_context
      = Ok (tt, ctx1) /\
    ctx_symbols ctx1 !! k = Some "" /\
    compile (InstanceVariable "") ctx1 = Ok (tt, ctx2) /\
    ctx_data ctx2 =
      ctx_data ctx1 ++
      [MkInstr consts.LOAD_SELF []; MkInstr consts.LOAD_INSTANCE_VAR [k]].
Proof.
  assert (exists ctx1,
            compile (InstanceVariableAssignment "" (ConstantInt 1)) new_context
            = Ok (tt, ctx1)) as [ctx1 Hc]
    by (eexists; vm_compute; reflexivity).
  destruct (instance_variable_read_after_write _ _ _ _ Hc)
    as (c0 & code & k & _ & _ & _ & Hk & ctx2 & H2 & Hd2 & _).
  exists ctx1, ctx2, k. done.
Defined.

(** ** Operands that name a local or a symbol *)

(** The operand of a local load or store is the slot of a name bound in
    [slots]; the first operand of an instruction that names a method, a
    constant or an instance variable is an index into [spool]. *)
Definition operand_bound (spool : list string) (slots : gmap string nat)
    (i : Instr) : Prop :=
  match opcode i with
  | consts.LOAD_LOCAL | consts.STORE_LOCAL =>
      exists slot name, operands i = [slot] /\ slots !! name = Some slot
  | consts.SEND =>
      exists k nargs name, operands i = [k; nargs] /\ spool !! k = Some name
  | consts.LOAD_CONSTANT | consts.STORE_CONSTANT
  | consts.LOAD_INSTANCE_VAR | consts.STORE_INSTANCE_VAR =>
      exists k name, operands i = [k] /\ spool !! k = Some name
  | _ => True
  end.

(** The same for the code of a code object, against its own tables, and for
    the code objects in its constant pool. *)
Fixpoint const_refs_ok (w : W_Object) : Prop :=
  match w with
  | W_Code code cpool spool slots =>
      Forall (operand_bound spool slots) code /\
      (fix all (l : list W_Object) : Prop :=
         match l with
         | [] => True
         | x :: rest => const_refs_ok x /\ all rest
         end) cpool
  | _ => True
  end.

Lemma const_refs_ok_code code cpool spool slots :
  const_refs_ok (W_Code code cpool spool slots) <->
  Forall (operand_bound spool slots) code /\ Forall const_refs_ok cpool.
Proof.
  simpl. apply and_iff_compat_l.
  induction cpool as [|x rest IH]; [ by rewrite Forall_nil |].
  rewrite Forall_cons. by rewrite IH.
Qed.

Lemma operand_bound_mono spool slots spool' slots' i :
  spool `prefix_of` spool' -> slots ⊆ slots' ->
  operand_bound spool slots i -> operand_bound spool' slots' i.
Proof.
  intros Hs Hl. unfold operand_bound.
  destruct (opcode i); try done.
  - intros (slot & name & Ho & Hn). exists slot, name. split; [done|].
    eapply lookup_weaken; eassumption.
  - intros (slot & name & Ho & Hn). exists slot, name. split; [done|].
    eapply lookup_weaken; eassumption.
  - intros (k & name & Ho & Hn). exists k, name. split; [done|].
    eapply prefix_lookup_Some; eassumption.
  - intros (k & name & Ho & Hn). exists k, name. split; [done|].
    eapply prefix_lookup_Some; eassumption.
  - intros (k & name & Ho & Hn). exists k, name. split; [done|].
    eapply prefix_lookup_Some; eassumption.
  - intros (k & name & Ho & Hn). exists k, name. split; [done|].
    eapply prefix_lookup_Some; eassumption.
  - intros (k & nargs & name & Ho & Hn). exists k, nargs, name. split; [done|].
    eapply prefix_lookup_Some; eassumption.
Qed.

(** What a pass adds, with operands bound in the tables it ends with. *)
Definition refs_grow (ctx ctx' : CompilerContext) : Prop :=
  exists code cs,
    ctx_data ctx' = ctx_data ctx ++ code /\
    ctx_consts ctx' = ctx_consts ctx ++ cs /\
    Forall (operand_bound (ctx_symbols ctx') (ctx_locals ctx')) code /\
    Forall const_refs_ok cs /\
    ctx_symbols ctx `prefix_of` ctx_symbols ctx' /\
    ctx_locals ctx ⊆ ctx_locals ctx'.

Lemma refs_grow_same ctx ctx' :
  ctx_data ctx' = ctx_data ctx -> ctx_consts ctx' = ctx_consts ctx ->
  ctx_symbols ctx `prefix_of` ctx_symbols ctx' ->
  ctx_locals ctx ⊆ ctx_locals ctx' ->
  refs_grow ctx ctx'.
Proof.
  intros Hd Hk Hs Hl. exists [], [].
  rewrite Hd, Hk, !app_nil_r. split_and!; auto.
Qed.

Lemma refs_grow_refl ctx : refs_grow ctx ctx.
Proof. by apply refs_grow_same. Qed.

Lemma refs_grow_trans c1 c2 c3 :
  refs_grow c1 c2 -> refs_grow c2 c3 -> refs_grow c1 c3.
Proof.
  intros (d1 & k1 & Hd1 & Hk1 & HP1 & HQ1 & Hs1 & Hl1)
         (d2 & k2 & Hd2 & Hk2 & HP2 & HQ2 & Hs2 & Hl2).
  exists (d1 ++ d2), (k1 ++ k2).
  rewrite Hd2, Hd1, Hk2, Hk1, !app_assoc, !Forall_app.
  split_and!; try done.
  - eapply Forall_impl; [exact HP1|]. intros i.
    by apply operand_bound_mono.
  - by etrans.
  - by etrans.
Qed.

Lemma emit_refs_grow c args ctx u ctx' :
  operand_bound (ctx_symbols ctx) (ctx_locals ctx) (MkInstr c args) ->
  emit c args ctx = Ok (u, ctx') -> refs_grow ctx ctx'.
Proof.
  intros HP (Hd & Hk & Hs & Hl)%emit_Ok. exists [MkInstr c args], [].
  rewrite Hd, Hk, Hs, Hl, app_nil_r. split_and!; auto.
Qed.

Lemma create_const_refs_grow w ctx k ctx' :
  const_refs_ok w -> create_const w ctx = Ok (k, ctx') -> refs_grow ctx ctx'.
Proof.
  intros HQ (_ & Hd & Hk & Hs & Hl)%create_const_Ok. exists [], [w].
  rewrite Hd, Hk, Hs, Hl, app_nil_r. split_and!; auto.
Qed.

Lemma create_symbol_const_refs_grow name ctx k ctx' :
  create_symbol_const name ctx = Ok (k, ctx') ->
  refs_grow ctx ctx' /\ ctx_symbols ctx' !! k = Some name.
Proof.
  intros (Hk & Hpre & Hd & Hkk & Hl)%create_symbol_const_Ok.
  split; [|done]. apply refs_grow_same; try done. by rewrite Hl.
Qed.

Lemma create_local_refs_grow name ctx slot ctx' :
  create_local name ctx = Ok (slot, ctx') ->
  refs_grow ctx ctx' /\ ctx_locals ctx' !! name = Some slot.
Proof.
  intros H. pose proof (create_local_extends _ _ _ _ H) as [_ _ _ Hsub _].
  apply create_local_Ok in H as (Hslot & Hd & Hk & Hs & _).
  split; [|done]. apply refs_grow_same; try done. by rewrite Hs.
Qed.

Lemma for_each_refs_grow (f : Node -> M unit) (l : list Node) :
  Forall (fun n => forall c c', f n c = Ok (tt, c') -> refs_grow c c') l ->
  forall ctx ctx', for_each f l ctx = Ok (tt, ctx') -> refs_grow ctx ctx'.
Proof.
  induction 1 as [|n l Hn _ IH]; intros ctx ctx' H; simpl in H.
  - apply ret_Ok in H as [_ ->]. apply refs_grow_refl.
  - inv_bind H. eapply refs_grow_trans; eauto.
Qed.

Lemma for_each_reversed_refs_grow (f : Node -> M unit) (l : list Node) :
  Forall (fun n => forall c c', f n c = Ok (tt, c') -> refs_grow c c') l ->
  forall ctx ctx', for_each_reversed f l ctx = Ok (tt, ctx') -> refs_grow ctx ctx'.
Proof.
  induction 1 as [|n l Hn _ IH]; intros ctx ctx' H; simpl in H.
  - apply ret_Ok in H as [_ ->]. apply refs_grow_refl.
  - inv_bind H. eapply refs_grow_trans; eauto.
Qed.

Lemma for_each_create_local_refs_grow l ctx ctx' :
  for_each (fun name => create_local name ;; ret tt) l ctx = Ok (tt, ctx') ->
  refs_grow ctx ctx'.
Proof.
  revert ctx. induction l as [|x l IH]; intros ctx H; simpl in H.
  - apply ret_Ok in H as [_ ->]. apply refs_grow_refl.
  - inv_bind H. inv_bind E. apply ret_Ok in E as [_ ->].
    apply create_local_refs_grow in E0 as [Hg _].
    eapply refs_grow_trans; eauto.
Qed.

Lemma newcode_refs_ok inner bc ctx :
  refs_grow new_context inner ->
  create_bytecode inner = Ok (bc, ctx) ->
  const_refs_ok (space.newcode bc).
Proof.
  intros (code & cs & Hd & Hk & HP & HQ & _). unfold create_bytecode.
  intros [= <- _]. unfold space.newcode.
  apply const_refs_ok_code. simpl in Hd, Hk |- *. by rewrite Hd, Hk.
Qed.

Ltac bound_operand :=
  first
    [ exact I
    | eexists _, _; split; [reflexivity | eassumption]
    | eexists _, _, _; split; [reflexivity | eassumption] ].

Ltac step_refs :=
  match goal with
  | H : emit _ _ ?c = Ok (_, ?c') |- refs_grow ?c _ =>
      eapply refs_grow_trans;
      [eapply emit_refs_grow; [|exact H]; bound_operand|]
  | H : create_const _ ?c = Ok (_, ?c') |- refs_grow ?c _ =>
      eapply refs_grow_trans;
      [eapply create_const_refs_grow; [|exact H];
       first [exact I | assumption]|]
  | H : create_int_const _ ?c = Ok (_, ?c') |- refs_grow ?c _ =>
      eapply refs_grow_trans;
      [eapply create_const_refs_grow; [|exact H]; exact I|]
  | H : create_string_const _ ?c = Ok (_, ?c') |- refs_grow ?c _ =>
      eapply refs_grow_trans;
      [eapply create_const_refs_grow; [|exact H]; exact I|]
  | H : create_symbol_const _ ?c = Ok (_, ?c') |- refs_grow ?c _ =>
      let Hg := fresh "Hg" in let Hk := fresh "Hsym" in
      apply create_symbol_const_refs_grow in H as [Hg Hk];
      eapply refs_grow_trans; [exact Hg|]
  | H : create_local _ ?c = Ok (_, ?c') |- refs_grow ?c _ =>
      let Hg := fresh "Hg" in let Hk := fresh "Hslot" in
      apply create_local_refs_grow in H as [Hg Hk];
      eapply refs_grow_trans; [exact Hg|]
  | H : compile ?n ?c = Ok (_, ?c'),
    IH : forall ctx ctx', compile ?n ctx = Ok (tt, ctx') -> refs_grow ctx ctx'
    |- refs_grow ?c _ =>
      eapply refs_grow_trans; [exact (IH _ _ H)|]
  | H : get_pos ?c = Ok (_, ?c') |- refs_grow ?c _ =>
      apply get_pos_Ok in H as [-> ->]
  | H : local_defined _ ?c = Ok (_, ?c') |- refs_grow ?c _ =>
      apply local_defined_Ok in H as [-> _]
  | H : first_char _ ?c = Ok (_, ?c') |- refs_grow ?c _ =>
      apply first_char_Ok in H as [-> _]
  | H : ret _ ?c = Ok (_, ?c') |- refs_grow ?c _ =>
      apply ret_Ok in H as [_ ->]
  | |- refs_grow ?c ?c => apply refs_grow_refl
  end.

(** The code of a conditional or of a loop, given that of its parts. *)
Lemma branch_refs_grow ctx c1 c2 c3 ctx' code_b j1 tail :
  refs_grow ctx c1 ->
  refs_grow c2 c3 ->
  emit consts.JUMP_IF_FALSE [0] c1 = Ok (tt, c2) ->
  ctx_data c3 = ctx_data c1 ++ MkInstr consts.JUMP_IF_FALSE [0] :: code_b ->
  ctx_data ctx' = ctx_data c1 ++ j1 :: code_b ++ tail ->
  ctx_consts ctx' = ctx_consts c3 ++ [w_nil] ->
  ctx_symbols ctx' = ctx_symbols c3 ->
  ctx_locals ctx' = ctx_locals c3 ->
  Forall (operand_bound (ctx_symbols ctx') (ctx_locals ctx')) (j1 :: tail) ->
  refs_grow ctx ctx'.
Proof.
  intros (code_c & cs1 & Hd1 & Hk1 & HP1 & HQ1 & Hs1 & Hl1)
         (code_b' & cs3 & Hd3' & Hk3 & HP3 & HQ3 & Hs3 & Hl3)
         (Hd2 & Hk2 & Hs2 & Hl2)%emit_Ok Hd3 Hd Hk Hs Hl Htail.
  rewrite Hd2, <- app_assoc in Hd3'. simpl in Hd3'.
  assert (code_b' = code_b) as -> by (rewrite Hd3 in Hd3'; by simplify_list_eq).
  rewrite Hs2 in Hs3. rewrite Hl2 in Hl3.
  apply Forall_cons in Htail as [Hj1 Htail].
  exists (code_c ++ j1 :: code_b ++ tail), (cs1 ++ cs3 ++ [w_nil]).
  split_and!.
  - by rewrite Hd, Hd1, <- app_assoc.
  - by rewrite Hk, Hk3, Hk2, Hk1, <- !app_assoc.
  - rewrite Hs, Hl in *.
    apply Forall_app. split; [|apply Forall_cons; split; [done|]].
    + eapply Forall_impl; [exact HP1|]. intros i.
      by apply operand_bound_mono.
    + apply Forall_app. split; done.
  - rewrite !Forall_app, Forall_singleton. done.
  - rewrite Hs. by etrans.
  - rewrite Hl. by etrans.
Qed.

(** X16.  Every local load or store a compile pass emits carries the slot
    of a name that the unit's local table binds when the pass ends, and
    every instruction that names a method, a constant or an instance
    variable carries an index into the unit's symbol pool as it is when the
    pass ends; the same holds inside every code object the pass adds to the
    constant pool, against the tables of that code object. *)
Theorem compile_operands_bound (n : Node) :
  forall ctx ctx',
    compile n ctx = Ok (tt, ctx') -> refs_grow ctx ctx'.
Proof.
  induction n using Node_ind'; intros ctx ctx' HC.
  - simpl in HC. inv_binds HC. repeat step_refs.
  - simpl in HC. eapply for_each_refs_grow; eauto.
  - simpl in HC. inv_bind HC. destruct dont_pop; simpl in HC; repeat step_refs.
  - simpl in HC. inv_bind HC. destruct (isupper a); inv_binds HC.
    + repeat step_refs.
    + step_refs. step_refs.
      pose proof (IHn _ _ E1) as Hv.
      eapply refs_grow_trans; [exact Hv|].
      destruct Hv as (_ & _ & _ & _ & _ & _ & _ & Hsub).
      assert (ctx_locals ctx2 !! target = Some a0) as Hslot'
        by (eapply lookup_weaken; eassumption).
      repeat step_refs.
  - simpl in HC. inv_binds HC. repeat step_refs.
  - apply If_compile_shape in HC as
      (c1 & c2 & c3 & code_b & Hc & Hj & Hb & Hd3 & Hd & Hk & Hs & Hl);
      [|apply compile_extends].
    eapply branch_refs_grow;
      [exact (IHn1 _ _ Hc) | exact (IHn2 _ _ Hb) | exact Hj | exact Hd3
      | exact Hd | exact Hk | exact Hs | exact Hl |].
    repeat apply Forall_cons_2; try apply Forall_nil_2; exact I.
  - apply While_compile_shape in HC as
      (c1 & c2 & c3 & code_b & Hc & Hj & Hb & Hd3 & Hd & Hk & Hs & Hl);
      [|apply compile_extends].
    eapply branch_refs_grow;
      [exact (IHn1 _ _ Hc) | exact (IHn2 _ _ Hb) | exact Hj | exact Hd3
      | exact Hd | exact Hk | exact Hs | exact Hl |].
    repeat apply Forall_cons_2; try apply Forall_nil_2; exact I.
  - simpl in HC. inv_binds HC.
    match goal with
    | Hin : in_new_context _ _ = Ok (?bc, _) |- _ =>
        apply in_new_context_Ok in Hin as (-> & inner & Hin);
        inv_binds Hin;
        assert (const_refs_ok (space.newcode bc)) as Hbc
          by (eapply newcode_refs_ok; [|eassumption]; repeat step_refs)
    end.
    repeat step_refs.
  - simpl in HC. inv_binds HC.
    match goal with
    | Hin : in_new_context _ _ = Ok (?bc, _) |- _ =>
        apply in_new_context_Ok in Hin as (-> & inner & Hin);
        inv_bind Hin;
        match goal with
        | Hargs : for_each _ args _ = Ok _ |- _ =>
            apply for_each_create_local_refs_grow in Hargs
        end;
        inv_binds Hin;
        assert (const_refs_ok (space.newcode bc)) as Hbc
          by (eapply newcode_refs_ok; [|eassumption];
              eapply refs_grow_trans; [eassumption|]; repeat step_refs)
    end.
    repeat step_refs.
  - simpl in HC. inv_binds HC. repeat step_refs.
  - simpl in HC. unfold Send_compile in HC.
    inv_bind HC. rename E into Hl.
    inv_bind HC. rename E into Hr. inv_bind Hr. apply ret_Ok in E as [_ ->].
    inv_binds HC. repeat step_refs.
  - simpl in HC. unfold Send_compile in HC. inv_binds HC.
    repeat step_refs.
    eapply refs_grow_trans; [eapply for_each_reversed_refs_grow; eauto|].
    repeat step_refs.
  - simpl in HC. unfold Self_compile in HC. repeat step_refs.
  - simpl in HC. destruct (named_consts name) as [w|] eqn:Hn.
    { assert (const_refs_ok w) as Hw
        by (unfold named_consts in Hn; repeat case_match; simplify_eq; exact I).
      inv_binds HC. repeat step_refs. }
    destruct (String.eqb name "self").
    { repeat step_refs. }
    inv_bind HC. destruct a.
    { inv_binds HC. repeat step_refs. }
    inv_bind HC. destruct (isupper a).
    { inv_binds HC. repeat step_refs. }
    unfold Send_compile, Self_compile in HC. simpl in HC. inv_binds HC.
    repeat step_refs.
  - simpl in HC. inv_binds HC. repeat step_refs.
  - simpl in HC. inv_bind HC.
    eapply refs_grow_trans; [eapply for_each_refs_grow; eauto|].
    repeat step_refs.
  - simpl in HC. inv_binds HC. repeat step_refs.
  - simpl in HC. inv_binds HC. repeat step_refs.
Qed.

Lemma compile_operands_bound_witness :
  exists ctx',
    compile (Function "f" ["a"]
               (Block [Statement
                         (Assignment "b"
                            (Send (Variable_ "a") "+" [InstanceVariable "c"]))
                         true])) new_context = Ok (tt, ctx') /\
    refs_grow new_context ctx'.
Proof.
  assert (exists ctx',
    compile (Function "f" ["a"]
               (Block [Statement
                         (Assignment "b"
                            (Send (Variable_ "a") "+" [InstanceVariable "c"]))
                         true])) new_context = Ok (tt, ctx')) as [ctx' Hc]
    by (eexists; vm_compute; reflexivity).
  exists ctx'. split; [exact Hc|].
  exact (compile_operands_bound _ _ _ Hc).
Defined.
